(** * Allusion: tag-collection tree and file store

    A shallow embedding of
      - src/renderer/frontend/components/TagTree.tsx
      - src/renderer/frontend/stores/FileStore.ts
    together with the properties of the synchronisation and hierarchy
    engine that the specification states about them.

    Part I holds the definitions, Part II the theorems. *)

From Stdlib Require Import ZArith Lia.
From stdpp Require Import base option list gmap strings pretty.

#[local] Set Warnings "-register-all,-clear-no-such-hyp".

Local Open Scope Z_scope.
Local Open Scope nat_scope.

(** Identifiers ([ID] in entities/ID) are opaque strings. *)
Abbreviation ID := string (only parsing).

(* ===================================================================== *)
(** * Part I: definitions *)
(* ===================================================================== *)

(** ** Array primitives used by the sources

    JavaScript arrays and MobX observable arrays are modelled as lists.
    Only the methods the two source files call are given. *)

Module JsArray.

Section Generic.
Context {A : Type} `{EqDecision A}.

(** [arr.includes(x)] *)
Definition includes (arr : list A) (x : A) : bool :=
  bool_decide (x ∈ arr).

(** Position of the first element equal to [x], if any. *)
Fixpoint firstIndex (arr : list A) (x : A) : option nat :=
  match arr with
  | [] => None
  | y :: rest => if decide (y = x) then Some 0 else S <$> firstIndex rest x
  end.

(** [arr.indexOf(x)]: a number, [-1] when [x] is absent. *)
Definition indexOf (arr : list A) (x : A) : Z :=
  match firstIndex arr x with
  | Some i => Z.of_nat i
  | None => (-1)%Z
  end.

(** MobX [arr.remove(x)]: splices out the first occurrence of [x]; the
    array is left as it is when [x] does not occur. *)
Fixpoint remove (x : A) (arr : list A) : list A :=
  match arr with
  | [] => []
  | y :: rest => if decide (y = x) then rest else y :: remove x rest
  end.

(** [arr.push(x)] *)
Definition push (x : A) (arr : list A) : list A := arr ++ [x].

(** [arr.splice(start, 0, x)]: a negative [start] counts from the end and
    is clamped at 0, a [start] beyond the end is clamped to the length. *)
Definition spliceStart (start : Z) (len : nat) : nat :=
  if (start <? 0)%Z
  then Z.to_nat (Z.max (Z.of_nat len + start) 0)
  else Z.to_nat (Z.min start (Z.of_nat len)).

Definition spliceInsert (start : Z) (x : A) (arr : list A) : list A :=
  let k := spliceStart start (length arr) in
  take k arr ++ x :: drop k arr.

End Generic.

End JsArray.

(** ** TagTree.tsx *)

Module TagTree.
Import JsArray.

(** *** Reparenting: the store's flat list of collections

    A [ClientTagCollection] holds the ids of its tags and of its
    sub-collections as observable arrays.  [store.tagCollectionList] is
    the list of all collection objects; a collection object is referred to
    by its position in that list, so that two references to the same
    object are the same position. *)

Record ClientTagCollection := mkCollection {
  id : ID;
  tags : list ID;
  subCollections : list ID;
}.

Definition setTags (f : list ID → list ID) (c : ClientTagCollection) :=
  {| id := id c; tags := f (tags c); subCollections := subCollections c |}.

Definition setSubCollections (f : list ID → list ID) (c : ClientTagCollection) :=
  {| id := id c; tags := tags c; subCollections := f (subCollections c) |}.

(** [store.tagCollectionList.find(p)]: the first collection for which [p]
    holds, with its position. *)
Definition find (p : ClientTagCollection → bool) (store : list ClientTagCollection)
  : option (nat * ClientTagCollection) :=
  list_find (λ c, p c = true) store.

(** [onMoveCollection] of the collection node [col] (lines 58-64). *)
Definition onMoveCollection (col : nat) (movedId : ID)
    (store : list ClientTagCollection) : list ClientTagCollection :=
  match find (λ c, includes (subCollections c) movedId) store with
  | Some (movedCollectionParent, _) =>
      let store1 :=
        alter (setSubCollections (remove movedId)) movedCollectionParent store in
      alter (setSubCollections (push movedId)) col store1
  | None => store
  end.

(** [onMoveTag] of the collection node [col] (lines 65-71): the tag is
    appended. *)
Definition onMoveTagToCollection (col : nat) (movedId : ID)
    (store : list ClientTagCollection) : list ClientTagCollection :=
  match find (λ c, includes (tags c) movedId) store with
  | Some (movedCollectionParent, _) =>
      let store1 := alter (setTags (remove movedId)) movedCollectionParent store in
      alter (setTags (push movedId)) col store1
  | None => store
  end.

(** [onMoveTag] of the node of tag [tagId] shown inside collection [col]
    (lines 90-100).  The second component is what is written to
    [console.error]: the message and the id. *)
Definition onMoveTag (col : nat) (tagId : ID) (movedTagId : ID)
    (store : list ClientTagCollection)
  : list ClientTagCollection * list (string * ID) :=
  match find (λ c, includes (tags c) movedTagId) store with
  | None =>
      (store,
       [("Could not find original collection when moving tag"%string, movedTagId)])
  | Some (origCol, _) =>
      let insertionIndex := indexOf (from_option tags [] (store !! col)) tagId in
      let store1 := alter (setTags (remove movedTagId)) origCol store in
      (alter (setTags (spliceInsert insertionIndex movedTagId)) col store1, [])
  end.

(** *** The hierarchy as the recursive functions see it

    [col.clientSubCollections] is a getter of the entity class, which is
    not among these sources; it yields the collection objects of the ids
    in [col.subCollections].  The recursive functions of TagTree.tsx walk
    the object graph through that getter; the graph is a finite tree, and
    is modelled as one. *)

Inductive Collection := Node {
  colId : ID;
  colTags : list ID;
  clientSubCollections : list Collection;
}.

(** [getRecursiveTags] (lines 146-147). *)
Fixpoint getRecursiveTags (col : Collection) : list ID :=
  colTags col ++ flat_map getRecursiveTags (clientSubCollections col).

(** Modelled from the spec: the getter [isSelected] of the entity class
    [ClientTagCollection], which is not among these sources.  Section 4.3:
    [isSelected(collection) = descendantTagIds(collection) ⊆ selection],
    a non-empty descendant set being required. *)
Definition isSelected (col : Collection) (tagSelection : list ID) : bool :=
  let descendants := getRecursiveTags col in
  negb (bool_decide (descendants = [])) && forallb (includes tagSelection) descendants.

(** The two [forEach] loops of lines 152 and 154. *)
Definition deselectAll (selectedTags tagSelection : list ID) : list ID :=
  foldl (λ sel tagId, remove tagId sel) tagSelection selectedTags.

Definition selectAll (selectedTags tagSelection : list ID) : list ID :=
  foldl (λ sel tagId, if includes sel tagId then sel else push tagId sel)
        tagSelection selectedTags.

(** The branch of [handleNodeClick] for a clicked collection (lines
    144-155), as a function of [uiStore.tagSelection]; [selected] is the
    collection's [isSelected] getter. *)
Definition toggleCollectionWith (selected : Collection → list ID → bool)
    (clickedCollection : Collection) (tagSelection : list ID) : list ID :=
  let selectedTags := getRecursiveTags clickedCollection in
  if selected clickedCollection tagSelection
  then deselectAll selectedTags tagSelection
  else selectAll selectedTags tagSelection.

Definition toggleCollection := toggleCollectionWith isSelected.

(** *** Expand state

    An [IExpandState] is a JavaScript object used as a map from ids to
    booleans.  The objects live in a heap and are passed by reference, so
    that "the same object" and "a new object" can be told apart. *)

Abbreviation IExpandState := (gmap string bool) (only parsing).
Abbreviation Heap := (gmap nat (gmap string bool)) (only parsing).

(** [expandState[key] = val] on the object at [ref]. *)
Definition assign (ref : nat) (key : ID) (val : bool) (h : Heap) : Heap :=
  alter (λ obj : IExpandState, <[key := val]> obj) ref h.

(** [setExpandStateRecursively] (lines 22-28): returns the reference it
    hands back and the heap after its writes. *)
Fixpoint setExpandStateRecursively (col : Collection) (val : bool)
    (expandState : nat) (h : Heap) : nat * Heap :=
  let h1 :=
    foldl (λ h0 subCol, snd (setExpandStateRecursively subCol val expandState h0))
          h (clientSubCollections col) in
  (expandState, assign expandState (colId col) val h1).

(** [{ ...obj }]: a new object with the entries of the object at [ref]. *)
Definition fresh (h : Heap) : nat := S (max_list (elements (dom h))).

Definition spread (ref : nat) (h : Heap) : nat * Heap :=
  let new := fresh h in
  (new, <[new := default ∅ (h !! ref)]> h).

(** [onExpandAll] and [onCollapseAll] (lines 56-57): the reference given
    to [setExpandState], and the heap. *)
Definition onExpandAll (col : Collection) (expandState : nat) (h : Heap) : nat * Heap :=
  let (r, h1) := setExpandStateRecursively col true expandState h in
  spread r h1.

Definition onCollapseAll (col : Collection) (expandState : nat) (h : Heap) : nat * Heap :=
  let (r, h1) := setExpandStateRecursively col false expandState h in
  spread r h1.

(** What the writes of [setExpandStateRecursively] amount to on the
    entries of the object they are made to: the sub-collections in their
    order, each with its own descendants first, then the collection. *)
Fixpoint expandedBelow (col : Collection) (val : bool) (m : IExpandState)
  : IExpandState :=
  <[colId col := val]>
    (foldl (λ m0 subCol, expandedBelow subCol val m0) m (clientSubCollections col)).

(** The ids of a collection and of the collections below it. *)
Fixpoint collectionIds (col : Collection) : list ID :=
  colId col :: flat_map collectionIds (clientSubCollections col).

(** [{ ...expandState, [key]: val }]: a new object with the entries of the
    object at [ref], and then [val] at [key]. *)
Definition spreadWith (ref : nat) (key : ID) (val : bool) (h : Heap) : nat * Heap :=
  let new := fresh h in
  (new, <[new := <[key := val]> (default ∅ (h !! ref))]> h).

(** [handleNodeCollapse] and [handleNodeExpand] (lines 116-122), and
    [onExpand] of a collection node (line 54): the reference given to
    [setExpandState], and the heap. *)
Definition handleNodeCollapse (nodeId : ID) (expandState : nat) (h : Heap) : nat * Heap :=
  spreadWith expandState nodeId false h.

Definition handleNodeExpand (nodeId : ID) (expandState : nat) (h : Heap) : nat * Heap :=
  spreadWith expandState nodeId true h.

Definition onExpand (col : Collection) (expandState : nat) (h : Heap) : nat * Heap :=
  spreadWith expandState (colId col) true h.

End TagTree.

(** ** FileStore.ts

    All code of the store runs on one thread.  An operation is modelled by
    its whole effect: what it, and the promises it starts, do until
    nothing is left to run, no other operation of the store being started
    meanwhile.  An [await] hands over the outcome of the awaited promise,
    and a rejection ends the awaiting function there.  A promise that is
    not awaited does its work all the same; its rejection reaches no
    handler.  Where callbacks wait for I/O at the same time (the existence
    checks of a batch), the order in which they go on is the choice of the
    runtime. *)

Module FileStore.
Import JsArray.

(** A file record as the backend reports it ([IFile]). *)
Record IFile := mkFile {
  id : ID;
  path : string;
  tags : list ID;
}.

(** A [ClientFile] object of the store.  [obj] is the identity of the
    object: [new ClientFile] yields an object that is none of the earlier
    ones, whatever its fields hold, so that two values of this type are
    equal exactly when they are the same object. *)
Record ClientFile := mkClientFile {
  obj : nat;
  record : IFile;
}.

(** What the store does to its collaborators, in the order it does it. *)
Inductive Event :=
| Deselect (file : ClientFile)          (* rootStore.uiStore.deselectFile(file) *)
| Dispose (file : ClientFile)           (* file.dispose() *)
| CreateFile (fileId : ID) (filePath : string)  (* backend.createFile(id, path) *)
| FetchFiles                            (* backend.fetchFiles() *)
| SearchFiles (tagIds : list ID)        (* backend.searchFiles(tags) *)
| RemoveFile (file : IFile)             (* backend.removeFile(file) *)
| Log (msg : string) (detail : string). (* console.log, console.error *)

#[global] Instance IFile_eq_dec : EqDecision IFile.
Proof. solve_decision. Defined.
#[global] Instance ClientFile_eq_dec : EqDecision ClientFile.
Proof. solve_decision. Defined.

(** How a promise settles. *)
Inductive Outcome (A : Type) :=
| Resolved (a : A)
| Rejected (err : string).
Arguments Resolved {A} a.
Arguments Rejected {A} err.

(** The persistence backend (section 6 of the specification), with a state
    of its own of type [B]; a call is answered in the state the earlier
    calls left. *)
Record Backend (B : Type) := mkBackend {
  createFile : B → ID → string → B * Outcome unit;
  fetchFiles : B → B * Outcome (list IFile);
  searchFiles : B → list ID → B * Outcome (list IFile);
  removeFile : B → IFile → B * Outcome unit;
}.
Arguments createFile {B} _ _ _ _.
Arguments fetchFiles {B} _ _.
Arguments searchFiles {B} _ _ _.
Arguments removeFile {B} _ _ _.

(** What else the store runs against.
    - [pathExists p]: whether [fs.access(p, F_OK)] succeeds.
    - [completionOrder batch]: the order (as positions in [batch]) in which
      the existence checks started together for [batch] complete.
    - Modelled from the spec: [generateId n], the identifier that the
      constructor of [ClientFile] (entities/File, not among these sources)
      gives to the [n]-th object; section 2 only says that identifiers are
      opaque and unique. *)
Record Runtime := mkRuntime {
  pathExists : string → bool;
  completionOrder : list IFile → list nat;
  generateId : nat → ID;
}.

(** The state of the store and of what surrounds it:
    - [fileList]: the observable array [this.fileList];
    - [nextObj]: the number of [ClientFile] objects constructed so far;
    - [backend]: the state of the backend;
    - [trace]: the events so far, oldest first;
    - [unhandled]: the rejections of promises that nothing awaited. *)
Record State (B : Type) := mkState {
  fileList : list ClientFile;
  nextObj : nat;
  backend : B;
  trace : list Event;
  unhandled : list string;
}.
Arguments mkState {B} _ _ _ _ _.
Arguments fileList {B} _.
Arguments nextObj {B} _.
Arguments backend {B} _.
Arguments trace {B} _.
Arguments unhandled {B} _.

(** An asynchronous operation of the store: from the state it starts in,
    how its promise settles and the state that is left when nothing
    remains to run. *)
Definition M (B A : Type) : Type := State B → Outcome A * State B.

Section Monad.
Context {B : Type}.

Definition ret {A} (a : A) : M B A := λ st, (Resolved a, st).

(** [await m] followed by [k]: a rejection of [m] is thrown at the
    [await] and ends the operation. *)
Definition bind {A C} (m : M B A) (k : A → M B C) : M B C :=
  λ st, match m st with
        | (Resolved a, st1) => k a st1
        | (Rejected err, st1) => (Rejected err, st1)
        end.

(** [try { m } catch (err) { handler }] *)
Definition tryCatch {A} (m : M B A) (handler : string → M B A) : M B A :=
  λ st, match m st with
        | (Resolved a, st1) => (Resolved a, st1)
        | (Rejected err, st1) => handler err st1
        end.

(** Appends an event to the trace. *)
Definition emit (e : Event) : M B unit :=
  λ st, (Resolved tt,
         mkState (fileList st) (nextObj st) (backend st) (trace st ++ [e])
                 (unhandled st)).

(** A call of an asynchronous function whose promise is dropped: what it
    does is done, its rejection reaches nobody. *)
Definition notAwaited {A} (m : M B A) : M B unit :=
  λ st, match m st with
        | (Resolved _, st1) => (Resolved tt, st1)
        | (Rejected err, st1) =>
            (Resolved tt,
             mkState (fileList st1) (nextObj st1) (backend st1) (trace st1)
                     (unhandled st1 ++ [err]))
        end.

End Monad.

#[global] Instance M_ret {B} : MRet (M B) := λ A, ret.
#[global] Instance M_bind {B} : MBind (M B) := λ A C k m, bind m k.

Section Store.
Context {B : Type} (be : Backend B) (rt : Runtime).

(** *** Calls of the backend *)

Definition callBackend {A} (e : Event) (call : B → B * Outcome A) : M B A :=
  λ st, let (b, out) := call (backend st) in
        (out, mkState (fileList st) (nextObj st) b (trace st ++ [e]) (unhandled st)).

Definition backendCreateFile (fileId : ID) (filePath : string) : M B unit :=
  callBackend (CreateFile fileId filePath) (λ b, createFile be b fileId filePath).

Definition backendFetchFiles : M B (list IFile) :=
  callBackend FetchFiles (fetchFiles be).

Definition backendSearchFiles (tagIds : list ID) : M B (list IFile) :=
  callBackend (SearchFiles tagIds) (λ b, searchFiles be b tagIds).

Definition backendRemoveFile (file : IFile) : M B unit :=
  callBackend (RemoveFile file) (λ b, removeFile be b file).

(** *** The file list *)

Definition getFileList : M B (list ClientFile) := λ st, (Resolved (fileList st), st).

Definition setFileList (l : list ClientFile) : M B unit :=
  λ st, (Resolved tt,
         mkState l (nextObj st) (backend st) (trace st) (unhandled st)).

(** [this.fileList.find((f) => f.id === fileId)] *)
Definition findById (fileId : ID) (l : list ClientFile) : option ClientFile :=
  List.find (λ f, bool_decide (id (record f) = fileId)) l.

(** Modelled from the spec: the constructor of [ClientFile] and its method
    [updateFromBackend] (entities/File, not among these sources).  A file
    is [{id, path, tagIds}] (section 3); [new ClientFile(store, path)] has
    a new identifier and no tags, [updateFromBackend(record)] takes over
    the fields of the record. *)
Definition newClientFile (filePath : string) : M B ClientFile :=
  λ st, let n := nextObj st in
        (Resolved (mkClientFile n (mkFile (generateId rt n) filePath [])),
         mkState (fileList st) (S n) (backend st) (trace st) (unhandled st)).

Definition newClientFileFromBackend (backendFile : IFile) : M B ClientFile :=
  λ st, let n := nextObj st in
        (Resolved (mkClientFile n backendFile),
         mkState (fileList st) (S n) (backend st) (trace st) (unhandled st)).

(** [for (const x of xs) { await body(x) }] and [xs.forEach(body)] with a
    body that does not throw. *)
Fixpoint forEach {A} (xs : list A) (body : A → M B unit) : M B unit :=
  match xs with
  | [] => ret tt
  | x :: rest => body x ;; forEach rest body
  end.

(** [xs.map(f)] for an [f] that constructs objects. *)
Fixpoint mapM {A C} (f : A → M B C) (xs : list A) : M B (list C) :=
  match xs with
  | [] => ret []
  | x :: rest => y ← f x; ys ← mapM f rest; ret (y :: ys)
  end.

(** *** The methods of the store *)

(** [addFile] (lines 24-31). *)
Definition addFile (filePath : string) : M B ClientFile :=
  file ← newClientFile filePath;
  backendCreateFile (id (record file)) (path (record file)) ;;
  l ← getFileList;
  setFileList (push file l) ;;
  ret file.

(** The method [removeFile] of the store (lines 92-98), primed here
    because [removeFile] is the backend's; [this.fileList.remove(file)] is
    the [remove] of MobX arrays, on objects. *)
Definition removeFile' (file : ClientFile) : M B unit :=
  emit (Deselect file) ;;
  emit (Dispose file) ;;
  l ← getFileList;
  setFileList (remove file l) ;;
  backendRemoveFile (record file).

(** [removeFilesById] (lines 33-45); [removalBody] is the body of its
    loop. *)
Definition removalBody (file : option ClientFile) : M B unit :=
  match file with
  | Some f => removeFile' f
  | None => emit (Log "Could not find file to remove" "undefined")
  end.

Definition removeFilesById (ids : list ID) : M B unit :=
  l ← getFileList;
  let filesToRemove := map (λ fileId, findById fileId l) ids in
  forEach filesToRemove removalBody.

(** The events of one turn of that loop, and what it does to the list;
    used to state what the loop does as a whole. *)
Definition removalEvents (file : option ClientFile) : list Event :=
  match file with
  | Some f => [Deselect f; Dispose f; RemoveFile (record f)]
  | None => [Log "Could not find file to remove" "undefined"]
  end.

Definition removalFromList (l : list ClientFile) (file : option ClientFile)
  : list ClientFile :=
  match file with
  | Some f => remove f l
  | None => l
  end.

(** How far that loop gets over [files] when the backend starts in state
    [b], going by the answers of the backend alone: the number of entries
    it takes, how it ends, and the state it leaves the backend in.  An
    entry that is no file is passed over; after a deletion that the
    backend accepts the loop goes on; a deletion that the backend rejects
    is the last thing the loop does. *)
Fixpoint removalsUntilRejected (files : list (option ClientFile)) (b : B)
  : nat * Outcome unit * B :=
  match files with
  | [] => (0, Resolved tt, b)
  | None :: rest =>
      let '(n, out, b') := removalsUntilRejected rest b in (S n, out, b')
  | Some f :: rest =>
      match removeFile be b (record f) with
      | (b1, Resolved _) =>
          let '(n, out, b') := removalsUntilRejected rest b1 in (S n, out, b')
      | (b1, Rejected err) => (1, Rejected err, b1)
      end
  end.

(** [Promise.all(callbacks)] for asynchronous callbacks that were started
    together and each wait for their own I/O first: a callback runs to its
    end when its turn comes in [order] (positions in [callbacks]), and a
    rejection of one does not stop the others.  The promise of
    [Promise.all] is rejected with the earliest rejection, and otherwise
    resolved with the results by position. *)
Definition runTurn {A} (callbacks : list (M B A))
    (acc : list (option A) * option string * State B) (i : nat)
  : list (option A) * option string * State B :=
  let '(results, rejection, st) := acc in
  match callbacks !! i with
  | None => acc
  | Some callback =>
      match callback st with
      | (Resolved a, st1) => (<[i := Some a]> results, rejection, st1)
      | (Rejected err, st1) =>
          (results, Some (default err rejection), st1)
      end
  end.

Definition promiseAll {A} (order : list nat) (callbacks : list (M B A))
  : M B (list A) :=
  λ st,
    let '(results, rejection, st1) :=
      foldl (runTurn callbacks) (replicate (length callbacks) None, None, st) order in
    match rejection with
    | Some err => (Rejected err, st1)
    | None => (Resolved (omap (λ r, r) results), st1)
    end.


(** The callback of lines 105-117, for one backend record. *)
Definition checkExistence (backendFile : IFile) : M B bool :=
  if pathExists rt (path backendFile)
  then ret true
  else
    notAwaited (backendRemoveFile backendFile) ;;
    l ← getFileList;
    match findById (id backendFile) l with
    | Some clientFile => removeFile' clientFile
    | None => ret tt
    end ;;
    ret false.

(** Lines 104-118: the existence checks of a batch. *)
Definition existenceChecks (backendFiles : list IFile) : M B (list bool) :=
  promiseAll (completionOrder rt backendFiles) (map checkExistence backendFiles).

(** [backendFiles.filter((_, i) => existenceChecker[i])] (lines 120-122). *)
Fixpoint keepChecked (backendFiles : list IFile) (existenceChecker : list bool)
  : list IFile :=
  match backendFiles, existenceChecker with
  | f :: files, c :: checks =>
      if c then f :: keepChecked files checks else keepChecked files checks
  | _, _ => []
  end.

(** [filesFromBackend] (lines 136-140). *)
Definition filesFromBackend (backendFiles : list IFile) : M B (list ClientFile) :=
  mapM newClientFileFromBackend backendFiles.

(** [clearFileList] (lines 143-147). *)
Definition clearFileList : M B unit :=
  l ← getFileList;
  forEach l (λ f, emit (Dispose f)) ;;
  setFileList [].

(** [replaceFileList] (lines 149-152). *)
Definition replaceFileList (backendFiles : list ClientFile) : M B unit :=
  l ← getFileList;
  forEach l (λ f, emit (Dispose f)) ;;
  setFileList backendFiles.

(** Lines 124-133: what is done with the records that passed the check. *)
Definition rebuild (existingBackendFiles : list IFile) : M B unit :=
  l ← getFileList;
  if bool_decide (length l = 0) then
    files ← filesFromBackend existingBackendFiles;
    l0 ← getFileList;
    setFileList (l0 ++ files)
  else if bool_decide (length existingBackendFiles = 0) then
    clearFileList
  else
    files ← filesFromBackend existingBackendFiles;
    replaceFileList files.

(** [updateFromBackend] (lines 100-134). *)
Definition updateFromBackend (backendFiles : list IFile) : M B unit :=
  existenceChecker ← existenceChecks backendFiles;
  let existingBackendFiles := keepChecked backendFiles existenceChecker in
  rebuild existingBackendFiles.

(** [fetchAllFiles] (lines 47-55).  The call of [updateFromBackend] is not
    awaited. *)
Definition fetchAllFiles : M B unit :=
  tryCatch
    (fetchedFiles ← backendFetchFiles;
     notAwaited (updateFromBackend fetchedFiles))
    (λ err, emit (Log "Could not load all files" err)).

(** [fetchFilesByTagIDs] (lines 57-70). *)
Definition fetchFilesByTagIDs (tagIds : list ID) : M B unit :=
  if bool_decide (length tagIds = 0) then
    fetchAllFiles
  else
    tryCatch
      (fetchedFiles ← backendSearchFiles tagIds;
       notAwaited (updateFromBackend fetchedFiles))
      (λ e, emit (Log "Could not find files based on tag search" e)).

(** The callback of [loadFiles] for one backend record (lines 78-88).
    [console.log] is given one text there; the second component of [Log]
    is empty. *)
Definition loadFile (backendFile : IFile) : M B unit :=
  if pathExists rt (path backendFile)
  then
    file ← newClientFileFromBackend backendFile;
    l ← getFileList;
    setFileList (push file l)
  else
    emit (Log (String.append (path backendFile) " 'does not exist'") "") ;;
    notAwaited (backendRemoveFile backendFile).

(** [loadFiles] (lines 72-90) and [init] (lines 20-22).  The call of
    [fetchFiles] is awaited outside any [try]. *)
Definition loadFiles : M B unit :=
  fetchedFiles ← backendFetchFiles;
  promiseAll (completionOrder rt fetchedFiles) (map loadFile fetchedFiles) ;;
  ret tt.

Definition init : M B unit := loadFiles.

(** *** Notions used to state what the existence checks do

    The events of the callback for one record, and what it does to the
    file list [l] it finds. *)
Definition checkEvents (backendFile : IFile) (l : list ClientFile) : list Event :=
  if pathExists rt (path backendFile) then []
  else
    RemoveFile backendFile ::
    match findById (id backendFile) l with
    | Some clientFile =>
        [Deselect clientFile; Dispose clientFile; RemoveFile (record clientFile)]
    | None => []
    end.

Definition checkList (backendFile : IFile) (l : list ClientFile) : list ClientFile :=
  if pathExists rt (path backendFile) then l
  else
    match findById (id backendFile) l with
    | Some clientFile => remove clientFile l
    | None => l
    end.

(** The same for the callbacks of a batch, taken in the order [order]. *)
Fixpoint passEvents (backendFiles : list IFile) (order : list nat)
    (l : list ClientFile) : list Event :=
  match order with
  | [] => []
  | i :: rest =>
      match backendFiles !! i with
      | Some r => checkEvents r l ++ passEvents backendFiles rest (checkList r l)
      | None => passEvents backendFiles rest l
      end
  end.

Fixpoint passList (backendFiles : list IFile) (order : list nat)
    (l : list ClientFile) : list ClientFile :=
  match order with
  | [] => l
  | i :: rest =>
      match backendFiles !! i with
      | Some r => passList backendFiles rest (checkList r l)
      | None => passList backendFiles rest l
      end
  end.

End Store.

(** The objects that [filesFromBackend] constructs when [n] objects exist
    already. *)
Definition freshFiles (n : nat) (backendFiles : list IFile) : list ClientFile :=
  imap (λ i r, mkClientFile (n + i) r) backendFiles.

(** Whether an event asks the backend to delete the record [fileId]. *)
Definition isRemovalOf (fileId : ID) (e : Event) : bool :=
  match e with
  | RemoveFile file => bool_decide (id file = fileId)
  | _ => false
  end.

(** The entries of the file list are different objects, all constructed
    before now. *)
Definition distinctObjects {B} (st : State B) : Prop :=
  NoDup (map obj (fileList st)) ∧ ∀ f, f ∈ fileList st → obj f < nextObj st.

(** What [loadFiles] does about a record whose path does not exist. *)
Definition staleEvents (r : IFile) : list Event :=
  [Log (String.append (path r) " 'does not exist'") ""; RemoveFile r].

(** The records that [loadFiles] turns into files when the checks of
    [fetchedFiles] complete in the order [order]. *)
Definition loadedRecords (rt : Runtime) (fetchedFiles : list IFile)
    (order : list nat) : list IFile :=
  filter (λ r, pathExists rt (path r) = true) (omap (λ i, fetchedFiles !! i) order).

End FileStore.

(** ** Concrete inputs used by the examples of Part II *)

Module Examples.
Import TagTree.

(** Two collections, neither a sub-collection of the other. *)
Definition twoRoots : list ClientTagCollection :=
  [ mkCollection "root" [] []; mkCollection "work" [] [] ].

(** Collection 0 holds the tags [t1; t2], collection 1 the tags [u1; u2]. *)
Definition twoShelves : list ClientTagCollection :=
  [ mkCollection "root" ["t1"; "t2"] ["work"]; mkCollection "work" ["u1"; "u2"] [] ].

(** A root with two sub-collections, each with one tag. *)
Definition threeRooms : list ClientTagCollection :=
  [ mkCollection "root" [] ["work"; "home"];
    mkCollection "work" ["urgent"] [];
    mkCollection "home" ["garden"] [] ].

(** A collection with two tags, and a selection that holds one of them. *)
Definition shelf : Collection := Node "work" ["a"; "b"] [].
Definition halfSelected : list ID := ["a"].
Definition allSelected : list ID := ["x"; "a"; "b"].

(** A heap with one expand-state object, at reference 0. *)
Definition oneState : gmap nat (gmap string bool) := {[ 0 := {[ "root" := true ]} ]}.
Definition nested : Collection :=
  Node "root" [] [Node "work" [] [Node "deep" [] []]; Node "home" [] []].

End Examples.

Module FileExamples.
Import FileStore.

(** A backend that keeps its records in a list. *)
Definition memoryBackend : Backend (list IFile) := {|
  createFile := λ b fileId filePath, (b ++ [mkFile fileId filePath []], Resolved tt);
  fetchFiles := λ b, (b, Resolved b);
  searchFiles := λ b tagIds,
    (b, Resolved (List.filter (λ f, existsb (JsArray.includes (tags f)) tagIds) b));
  removeFile := λ b file,
    (List.filter (λ f, negb (bool_decide (id f = id file))) b, Resolved tt);
|}.

(** A backend that can be read but rejects every change. *)
Definition readOnlyBackend : Backend (list IFile) := {|
  createFile := λ b _ _, (b, Rejected "read only");
  fetchFiles := λ b, (b, Resolved b);
  searchFiles := λ b tagIds,
    (b, Resolved (List.filter (λ f, existsb (JsArray.includes (tags f)) tagIds) b));
  removeFile := λ b _, (b, Rejected "read only");
|}.

(** A backend that rejects the deletion of a record it does not hold. *)
Definition strictBackend : Backend (list IFile) := {|
  createFile := λ b fileId filePath, (b ++ [mkFile fileId filePath []], Resolved tt);
  fetchFiles := λ b, (b, Resolved b);
  searchFiles := λ b tagIds,
    (b, Resolved (List.filter (λ f, existsb (JsArray.includes (tags f)) tagIds) b));
  removeFile := λ b file,
    if existsb (λ f, bool_decide (id f = id file)) b
    then (List.filter (λ f, negb (bool_decide (id f = id file))) b, Resolved tt)
    else (b, Rejected "no such file");
|}.

(** A backend that rejects every call. *)
Definition downBackend : Backend (list IFile) := {|
  createFile := λ b _ _, (b, Rejected "backend down");
  fetchFiles := λ b, (b, Rejected "backend down");
  searchFiles := λ b _, (b, Rejected "backend down");
  removeFile := λ b _, (b, Rejected "backend down");
|}.

(** Two paths exist; the checks of a batch complete in the order they were
    started, or in the opposite order. *)
Definition onDisk (p : string) : bool :=
  bool_decide (p ∈ ["/pics/a.png"; "/pics/b.png"]).

Definition inOrder : Runtime := {|
  pathExists := onDisk;
  completionOrder := λ batch, seq 0 (length batch);
  generateId := λ n, String.append "file-" (pretty n);
|}.

Definition lastFirst : Runtime := {|
  pathExists := onDisk;
  completionOrder := λ batch, rev (seq 0 (length batch));
  generateId := λ n, String.append "file-" (pretty n);
|}.

Definition recA : IFile := mkFile "a" "/pics/a.png" [].
Definition recB : IFile := mkFile "b" "/pics/b.png" ["t"].
Definition recC : IFile := mkFile "c" "/pics/gone.png" [].

Definition fileA : ClientFile := mkClientFile 0 recA.
Definition fileB : ClientFile := mkClientFile 1 recB.
Definition fileC : ClientFile := mkClientFile 2 recC.

(** A store that holds the three files, over a backend that holds their
    records. *)
Definition loaded : State (list IFile) :=
  mkState [fileA; fileB; fileC] 3 [recA; recB; recC] [] [].

(** A store that holds nothing yet. *)
Definition empty : State (list IFile) :=
  mkState [] 0 [recA; recB; recC] [] [].

(** A store that holds the first file only, over two records whose paths
    exist. *)
Definition onlyA : State (list IFile) :=
  mkState [fileA] 1 [recA; recB] [] [].

End FileExamples.

(* ===================================================================== *)
(** * Part II: theorems *)
(* ===================================================================== *)

(** ** Facts about the array primitives *)

Module JsArrayFacts.
Import JsArray.

Section Generic.
Context {A : Type} `{EqDecision A}.
Implicit Types (x y : A) (l : list A).

Lemma includes_true l x : includes l x = true ↔ x ∈ l.
Proof. unfold includes. apply bool_decide_eq_true. Qed.

Lemma includes_false l x : includes l x = false ↔ x ∉ l.
Proof. unfold includes. apply bool_decide_eq_false. Qed.

Lemma firstIndex_Some l x i :
  firstIndex l x = Some i → l !! i = Some x.
Proof.
  revert i. induction l as [|y l IH]; intros i; simpl; [done|].
  destruct (decide (y = x)) as [->|Hne].
  - intros [= <-]. done.
  - destruct (firstIndex l x) as [j|]; simpl; [|done].
    intros [= <-]. simpl. by apply IH.
Qed.

Lemma firstIndex_None l x : firstIndex l x = None ↔ x ∉ l.
Proof.
  induction l as [|y l IH]; simpl.
  - split; [intros _; apply not_elem_of_nil | done].
  - destruct (decide (y = x)) as [->|Hne].
    + split; [done | intros Hn; exfalso; apply Hn; left].
    + rewrite not_elem_of_cons. destruct (firstIndex l x); simpl.
      * split; [done | intros [_ Hn]]. apply IH in Hn. done.
      * split; [intros _; split; [congruence | by apply IH] | done].
Qed.

Lemma remove_notin l x : x ∉ l → remove x l = l.
Proof.
  induction l as [|y l IH]; simpl; [done|].
  rewrite not_elem_of_cons. intros [Hne Hn].
  destruct (decide (y = x)); [congruence|]. by rewrite IH.
Qed.

Lemma elem_of_remove_ne l x y : y ≠ x → y ∈ remove x l ↔ y ∈ l.
Proof.
  intros Hne. induction l as [|z l IH]; simpl; [done|].
  destruct (decide (z = x)) as [->|Hzx].
  - rewrite elem_of_cons. split; [by right | intros [->|Hy]; [done | done]].
  - rewrite !elem_of_cons, IH. done.
Qed.

Lemma elem_of_remove l x y : y ∈ remove x l → y ∈ l.
Proof.
  induction l as [|z l IH]; simpl; [done|].
  destruct (decide (z = x)) as [->|Hzx]; rewrite ?elem_of_cons; [by right|].
  intros [->|Hy]; [by left | right; by apply IH].
Qed.

Lemma remove_NoDup l x : NoDup l → NoDup (remove x l).
Proof.
  induction 1 as [|z l Hz Hl IH]; simpl; [constructor|].
  destruct (decide (z = x)); [done|].
  constructor; [|done]. intros Hin. apply Hz. by eapply elem_of_remove.
Qed.

Lemma not_elem_of_remove l x : NoDup l → x ∉ remove x l.
Proof.
  induction 1 as [|z l Hz Hl IH]; simpl; [apply not_elem_of_nil|].
  destruct (decide (z = x)) as [->|Hzx]; [done|].
  rewrite not_elem_of_cons. split; [congruence | done].
Qed.

Lemma length_remove l x : x ∈ l → S (length (remove x l)) = length l.
Proof.
  induction l as [|z l IH]; simpl.
  - intros Hin. by apply elem_of_nil in Hin.
  - destruct (decide (z = x)) as [->|Hzx]; [done|].
    rewrite elem_of_cons. intros [->|Hin]; [done|].
    simpl. by rewrite IH.
Qed.

Lemma spliceInsert_lookup l x i :
  i ≤ length l → spliceInsert (Z.of_nat i) x l !! i = Some x.
Proof.
  intros Hi. unfold spliceInsert, spliceStart.
  destruct (Z.ltb_spec (Z.of_nat i) 0); [lia|].
  replace (Z.to_nat (Z.min (Z.of_nat i) (Z.of_nat (length l)))) with i by lia.
  rewrite lookup_app_r by (rewrite length_take; lia).
  rewrite length_take. replace (i - i `min` length l) with 0 by lia. done.
Qed.

Lemma elem_of_spliceInsert l x y start :
  y ∈ spliceInsert start x l ↔ y = x ∨ y ∈ l.
Proof.
  unfold spliceInsert. set (k := spliceStart start (length l)).
  assert (Hl : y ∈ l ↔ y ∈ take k l ∨ y ∈ drop k l)
    by (rewrite <- elem_of_app, take_drop; done).
  rewrite elem_of_app, elem_of_cons, Hl. tauto.
Qed.

End Generic.

End JsArrayFacts.

(** ** TagTree.tsx: reparenting *)

Module TagTreeFacts.
Import JsArray JsArrayFacts TagTree.

Lemma find_None p store :
  find p store = None ↔ ∀ c, c ∈ store → p c = false.
Proof.
  unfold find. rewrite list_find_None, Forall_forall.
  split; intros H c Hc; specialize (H c Hc); destruct (p c); congruence.
Qed.

Lemma find_Some p store i c :
  find p store = Some (i, c) →
  store !! i = Some c ∧ p c = true ∧
  ∀ j d, store !! j = Some d → j < i → p d = false.
Proof.
  unfold find. intros (Hi & Hp & Hfirst)%list_find_Some.
  repeat split; [done..|].
  intros j d Hj Hlt. specialize (Hfirst j d Hj Hlt).
  destruct (p d); congruence.
Qed.

(** C3, as the claim states it, fails: with no collection holding "work"
    as a sub-collection, moving "work" into collection 0 leaves the
    sub-collections of collection 0 without "work". *)
Lemma onMoveCollection_orphan_not_appended :
  (∀ c, c ∈ Examples.twoRoots → "work" ∉ subCollections c) ∧
  ∃ newParent, onMoveCollection 0 "work" Examples.twoRoots !! 0 = Some newParent
               ∧ "work" ∉ subCollections newParent.
Proof.
  split.
  - intros c Hc. unfold Examples.twoRoots in Hc.
    rewrite !elem_of_cons in Hc.
    destruct Hc as [->|[->|Hc]]; simpl; [apply not_elem_of_nil..|].
    by apply elem_of_nil in Hc.
  - eexists. split; [vm_compute; reflexivity|]. simpl. apply not_elem_of_nil.
Qed.

(** C3, amended: when no collection holds [movedId] among its
    sub-collections, [onMoveCollection] changes nothing: no collection is
    altered, [movedId] is not appended to the new parent. *)
Theorem onMoveCollection_without_parent col movedId store :
  (∀ c, c ∈ store → movedId ∉ subCollections c) →
  onMoveCollection col movedId store = store.
Proof.
  intros Hnone. unfold onMoveCollection.
  assert (Hfind : find (λ c, includes (subCollections c) movedId) store = None).
  { apply find_None. intros c Hc. apply includes_false. by apply Hnone. }
  by rewrite Hfind.
Qed.

Lemma onMoveCollection_without_parent_witness :
  (∀ c, c ∈ Examples.twoRoots → "work" ∉ subCollections c) ∧
  onMoveCollection 0 "work" Examples.twoRoots = Examples.twoRoots.
Proof.
  assert (H : ∀ c, c ∈ Examples.twoRoots → "work" ∉ subCollections c).
  { intros c Hc. unfold Examples.twoRoots in Hc.
    rewrite !elem_of_cons in Hc.
    destruct Hc as [->|[->|Hc]]; simpl; [apply not_elem_of_nil..|].
    by apply elem_of_nil in Hc. }
  split; [exact H | exact (onMoveCollection_without_parent 0 "work" _ H)].
Defined.

(** When a parent is found the collection is detached from it and appended
    to the new parent. *)
Lemma onMoveCollection_with_parent col movedId store p parent :
  find (λ c, includes (subCollections c) movedId) store = Some (p, parent) →
  onMoveCollection col movedId store =
    alter (setSubCollections (push movedId)) col
      (alter (setSubCollections (remove movedId)) p store).
Proof. intros Hfind. unfold onMoveCollection. by rewrite Hfind. Qed.

(** C8: a tag [T] of collection [A] (position [a]) is dropped on the tag
    [dropTag], which sits at index [i] of collection [B] (position [b]);
    [T] is in no other collection and once in [A].  Afterwards [T] is at
    index [i] of [B], in no collection other than [B], and so, when [A]
    is another collection than [B], not in [A]. *)
Theorem onMoveTag_moves store a b A B T dropTag i :
  find (λ c, includes (tags c) T) store = Some (a, A) →
  store !! b = Some B →
  indexOf (tags B) dropTag = Z.of_nat i →
  NoDup (tags A) →
  (∀ j C, store !! j = Some C → j ≠ a → T ∉ tags C) →
  let store' := fst (onMoveTag b dropTag T store) in
  (a ≠ b → ∃ A', store' !! a = Some A' ∧ T ∉ tags A') ∧
  (∃ B', store' !! b = Some B' ∧ tags B' !! i = Some T) ∧
  (∀ j C, store' !! j = Some C → j ≠ b → T ∉ tags C).
Proof.
  intros Hfind Hb Hidx Hnodup Hothers store'.
  destruct (find_Some _ _ _ _ Hfind) as (Ha & HT & _).
  apply includes_true in HT.
  assert (Hi : i < length (tags B)).
  { unfold indexOf in Hidx.
    destruct (firstIndex (tags B) dropTag) as [k|] eqn:Hk; [|lia].
    apply firstIndex_Some, lookup_lt_Some in Hk. lia. }
  assert (Hstore' : store' =
    alter (setTags (spliceInsert (Z.of_nat i) T)) b
      (alter (setTags (remove T)) a store)).
  { unfold store', onMoveTag. rewrite Hfind, Hb. simpl. by rewrite Hidx. }
  rewrite Hstore'. clear store' Hstore'.
  assert (Hgone : T ∉ remove T (tags A)) by by apply not_elem_of_remove.
  split; [|split].
  - intros Hab. exists (setTags (remove T) A). split; [|done].
    rewrite list_lookup_alter_ne by done.
    by rewrite list_lookup_alter_eq, Ha.
  - destruct (decide (a = b)) as [->|Hab].
    + assert (A = B) as -> by congruence.
      eexists. split.
      { rewrite !list_lookup_alter_eq, Hb; simpl. reflexivity. }
      simpl. apply spliceInsert_lookup.
      pose proof (length_remove (tags B) T HT). lia.
    + eexists. split.
      { rewrite list_lookup_alter_eq, list_lookup_alter_ne, Hb by done.
        reflexivity. }
      simpl. apply spliceInsert_lookup. lia.
  - intros j C Hj Hjb.
    rewrite list_lookup_alter_ne in Hj by done.
    destruct (decide (j = a)) as [->|Hja].
    + rewrite list_lookup_alter_eq, Ha in Hj. by injection Hj as <-.
    + rewrite list_lookup_alter_ne in Hj by done. by eapply Hothers.
Qed.

Lemma onMoveTag_moves_witness :
  let store' := fst (onMoveTag 1 "u2" "t1" Examples.twoShelves) in
  (0 ≠ 1 → ∃ A', store' !! 0 = Some A' ∧ "t1" ∉ tags A') ∧
  (∃ B', store' !! 1 = Some B' ∧ tags B' !! 1 = Some "t1") ∧
  (∀ j C, store' !! j = Some C → j ≠ 1 → "t1" ∉ tags C).
Proof.
  apply (onMoveTag_moves Examples.twoShelves 0 1
           (mkCollection "root" ["t1"; "t2"] ["work"])
           (mkCollection "work" ["u1"; "u2"] []) "t1" "u2" 1).
  - vm_compute. reflexivity.
  - reflexivity.
  - vm_compute. reflexivity.
  - simpl. apply NoDup_cons. split.
    + rewrite list_elem_of_singleton. discriminate.
    + apply NoDup_singleton.
  - intros j C Hj Hj0. destruct j as [|[|j]]; [done| |done].
    injection Hj as <-. simpl.
    rewrite !not_elem_of_cons. repeat split; [discriminate..|].
    apply not_elem_of_nil.
Defined.

End TagTreeFacts.

(** ** TagTree.tsx: selection of a collection *)

Module SelectionFacts.
Import JsArray JsArrayFacts TagTree.

Implicit Types (sel below : list ID) (t : ID).

Lemma elem_of_remove_NoDup sel t x :
  NoDup sel → x ∈ remove t sel ↔ x ∈ sel ∧ x ≠ t.
Proof.
  intros Hsel. destruct (decide (x = t)) as [->|Hne].
  - split; [|tauto]. intros Hin. by apply not_elem_of_remove in Hin.
  - rewrite elem_of_remove_ne by done. tauto.
Qed.

Lemma deselectAll_spec below sel :
  NoDup sel →
  NoDup (deselectAll below sel) ∧ ∀ x, x ∈ deselectAll below sel ↔ x ∈ sel ∧ x ∉ below.
Proof.
  unfold deselectAll. revert sel.
  induction below as [|d below IH]; intros sel Hsel; simpl.
  - split; [done|]. intros x. rewrite elem_of_nil. tauto.
  - destruct (IH (remove d sel) (remove_NoDup _ _ Hsel)) as [Hnd Hel].
    split; [done|]. intros x.
    rewrite Hel, elem_of_remove_NoDup, not_elem_of_cons by done. tauto.
Qed.

Lemma selectAll_spec below sel :
  NoDup sel →
  NoDup (selectAll below sel) ∧ ∀ x, x ∈ selectAll below sel ↔ x ∈ sel ∨ x ∈ below.
Proof.
  unfold selectAll. revert sel.
  induction below as [|d below IH]; intros sel Hsel; simpl.
  - split; [done|]. intros x. rewrite elem_of_nil. tauto.
  - destruct (includes sel d) eqn:Hd.
    + apply includes_true in Hd.
      destruct (IH sel Hsel) as [Hnd Hel]. split; [done|]. intros x.
      rewrite Hel, elem_of_cons. split; [tauto|].
      intros [?|[->|?]]; tauto.
    + apply includes_false in Hd.
      assert (Hsel' : NoDup (push d sel)).
      { unfold push. apply NoDup_app. split; [done|]. split.
        - intros y Hy ->%list_elem_of_singleton. done.
        - apply NoDup_singleton. }
      destruct (IH _ Hsel') as [Hnd Hel]. split; [done|]. intros x.
      rewrite Hel. unfold push.
      rewrite elem_of_app, list_elem_of_singleton, elem_of_cons. tauto.
Qed.

Lemma isSelected_true col sel :
  isSelected col sel = true ↔
  getRecursiveTags col ≠ [] ∧ ∀ t, t ∈ getRecursiveTags col → t ∈ sel.
Proof.
  unfold isSelected.
  rewrite andb_true_iff, negb_true_iff, bool_decide_eq_false.
  rewrite forallb_forall.
  split; intros [Hne Hall]; (split; [done|]); intros t Ht.
  - apply includes_true, Hall. by apply list_elem_of_In.
  - apply includes_true, Hall. by apply list_elem_of_In.
Qed.

(** C1, as the claim states it, fails: with one of the two tags of a
    collection selected, toggling the collection twice selects none of
    them; the tag that was selected is lost. *)
Lemma toggle_twice_loses_selected_tag :
  "a" ∈ Examples.halfSelected ∧
  "a" ∉ toggleCollection Examples.shelf
          (toggleCollection Examples.shelf Examples.halfSelected).
Proof.
  split.
  - unfold Examples.halfSelected. apply list_elem_of_singleton. done.
  - assert (H : toggleCollection Examples.shelf
                  (toggleCollection Examples.shelf Examples.halfSelected) = [])
      by (vm_compute; reflexivity).
    rewrite H. apply not_elem_of_nil.
Qed.

(** This does not depend on how the getter [isSelected] decides: whatever
    it answers, two toggles of that collection never give back the
    selection that holds one of its two tags. *)
Lemma toggle_twice_whatever_isSelected selected :
  toggleCollectionWith selected Examples.shelf
    (toggleCollectionWith selected Examples.shelf Examples.halfSelected)
  ≠ Examples.halfSelected.
Proof.
  unfold toggleCollectionWith, Examples.halfSelected. simpl getRecursiveTags.
  assert (E1 : deselectAll ["a"; "b"] ["a"] = []) by (vm_compute; reflexivity).
  assert (E2 : selectAll ["a"; "b"] ["a"] = ["a"; "b"]) by (vm_compute; reflexivity).
  assert (E3 : deselectAll ["a"; "b"] [] = []) by (vm_compute; reflexivity).
  assert (E4 : selectAll ["a"; "b"] [] = ["a"; "b"]) by (vm_compute; reflexivity).
  assert (E5 : deselectAll ["a"; "b"] ["a"; "b"] = []) by (vm_compute; reflexivity).
  assert (E6 : selectAll ["a"; "b"] ["a"; "b"] = ["a"; "b"]) by (vm_compute; reflexivity).
  destruct (selected Examples.shelf ["a"]); rewrite ?E1, ?E2;
    match goal with
    | |- context [selected ?c ?s] => destruct (selected c s)
    end; rewrite ?E3, ?E4, ?E5, ?E6; discriminate.
Qed.

(** C1, amended: for a selection without duplicates that holds every tag
    below the collection, or none of them, toggling the collection twice
    gives back the same tags (each once, possibly in another order). *)
Theorem toggleCollection_twice col sel :
  NoDup sel →
  (∀ t, t ∈ getRecursiveTags col → t ∈ sel) ∨
  (∀ t, t ∈ getRecursiveTags col → t ∉ sel) →
  toggleCollection col (toggleCollection col sel) ≡ₚ sel.
Proof.
  intros Hsel Hcases.
  unfold toggleCollection, toggleCollectionWith.
  set (below := getRecursiveTags col) in *.
  destruct (decide (below = [])) as [Hbelow|Hbelow].
  { assert (Hnever : ∀ sel', isSelected col sel' = false).
    { intros sel'. apply not_true_iff_false. rewrite isSelected_true. tauto. }
    rewrite !Hnever. fold below. rewrite Hbelow. reflexivity. }
  assert (Hex : ∃ d, d ∈ below).
  { destruct below as [|d below']; [done|]. exists d. left. }
  destruct Hex as [d Hd].
  destruct Hcases as [Hall|Hnone].
  - assert (H1 : isSelected col sel = true) by (apply isSelected_true; done).
    rewrite H1.
    destruct (deselectAll_spec below sel Hsel) as [Hnd1 Hel1].
    assert (H2 : isSelected col (deselectAll below sel) = false).
    { apply not_true_iff_false. rewrite isSelected_true. intros [_ Hsub].
      specialize (Hsub d Hd). apply Hel1 in Hsub. tauto. }
    rewrite H2.
    destruct (selectAll_spec below _ Hnd1) as [Hnd2 Hel2].
    apply NoDup_Permutation; [done..|]. intros x.
    rewrite Hel2, Hel1. split; [intros [[? _]|?]; auto|].
    intros Hx. destruct (decide (x ∈ below)); tauto.
  - assert (H1 : isSelected col sel = false).
    { apply not_true_iff_false. rewrite isSelected_true. intros [_ Hsub].
      by apply (Hnone d Hd), Hsub. }
    rewrite H1.
    destruct (selectAll_spec below sel Hsel) as [Hnd1 Hel1].
    assert (H2 : isSelected col (selectAll below sel) = true).
    { apply isSelected_true. split; [done|]. intros t Ht. apply Hel1. tauto. }
    rewrite H2.
    destruct (deselectAll_spec below _ Hnd1) as [Hnd2 Hel2].
    apply NoDup_Permutation; [done..|]. intros x.
    rewrite Hel2, Hel1. split; [tauto|].
    intros Hx. split; [tauto|]. intros HxD. by apply (Hnone x HxD).
Qed.

Lemma toggleCollection_twice_witness :
  toggleCollection Examples.shelf
    (toggleCollection Examples.shelf Examples.allSelected)
  ≡ₚ Examples.allSelected.
Proof.
  apply toggleCollection_twice.
  - unfold Examples.allSelected.
    repeat (apply NoDup_cons; split;
            [rewrite ?not_elem_of_cons; repeat split;
             try discriminate; apply not_elem_of_nil|]).
    apply NoDup_nil. done.
  - left. intros t. simpl. unfold Examples.allSelected.
    rewrite !elem_of_cons. tauto.
Defined.

End SelectionFacts.

(** ** TagTree.tsx: expand state *)

Module ExpandFacts.
Import TagTree.

(** Induction on a collection, with the property known of all its
    sub-collections. *)
Lemma Collection_rect_sub (P : Collection → Prop) :
  (∀ i ts subs, Forall P subs → P (Node i ts subs)) → ∀ col, P col.
Proof.
  intros Hnode. fix IH 1. intros [i ts subs]. apply Hnode.
  induction subs as [|sub subs IHsubs]; constructor; [apply IH | exact IHsubs].
Qed.

Lemma setExpandStateRecursively_fst col val ref (h : gmap nat (gmap string bool)) :
  fst (setExpandStateRecursively col val ref h) = ref.
Proof. by destruct col. Qed.

Lemma assign_alter ref key val (h : gmap nat (gmap string bool)) :
  assign ref key val h = alter (λ obj, <[key := val]> obj) ref h.
Proof. reflexivity. Qed.

Lemma setExpandStateRecursively_snd col val ref :
  ∀ h : gmap nat (gmap string bool),
    snd (setExpandStateRecursively col val ref h)
    = alter (expandedBelow col val) ref h.
Proof.
  induction col as [i ts subs IH] using Collection_rect_sub. intros h.
  simpl. rewrite assign_alter.
  assert (Hfold : ∀ h0 : gmap nat (gmap string bool),
    foldl (λ h1 subCol, snd (setExpandStateRecursively subCol val ref h1)) h0 subs
    = alter (λ m, foldl (λ m0 subCol, expandedBelow subCol val m0) m subs) ref h0).
  { induction IH as [|sub subs Hsub _ IHsubs]; intros h0; simpl.
    - apply map_eq. intros k. rewrite lookup_alter.
      case_decide; [subst|done]. by destruct (h0 !! k).
    - rewrite Hsub, IHsubs. apply map_eq. intros k. rewrite !lookup_alter.
      case_decide; [subst|done]. rewrite decide_True by done.
      by destruct (h0 !! k). }
  rewrite Hfold. apply map_eq. intros k. rewrite !lookup_alter.
  case_decide; [subst|done]. rewrite decide_True by done.
  by destruct (h !! k).
Qed.

Lemma setExpandStateRecursively_eq col val ref (h : gmap nat (gmap string bool)) :
  setExpandStateRecursively col val ref h
  = (ref, alter (expandedBelow col val) ref h).
Proof.
  rewrite (surjective_pairing (setExpandStateRecursively col val ref h)).
  by rewrite setExpandStateRecursively_fst, setExpandStateRecursively_snd.
Qed.

(** What is written: [val] for the collection and every collection below
    it, nothing else. *)
Lemma expandedBelow_lookup col val :
  ∀ (m : gmap string bool) key,
    expandedBelow col val m !! key
    = if decide (key ∈ collectionIds col) then Some val else m !! key.
Proof.
  induction col as [i ts subs IH] using Collection_rect_sub. intros m key.
  cbn [expandedBelow collectionIds clientSubCollections colId].
  assert (Hfold : ∀ m0 : gmap string bool,
    foldl (λ m1 subCol, expandedBelow subCol val m1) m0 subs !! key
    = if decide (key ∈ flat_map collectionIds subs) then Some val else m0 !! key).
  { induction IH as [|sub subs Hsub _ IHsubs]; intros m0; cbn [foldl flat_map].
    - case_decide as Hin; [by apply elem_of_nil in Hin | done].
    - rewrite IHsubs, Hsub.
      repeat case_decide; try done; set_solver. }
  rewrite lookup_insert. destruct (decide (i = key)) as [->|Hk].
  - rewrite decide_True by set_solver. done.
  - rewrite Hfold. repeat case_decide; try done; set_solver.
Qed.

Lemma fresh_not_in (h : gmap nat (gmap string bool)) : h !! fresh h = None.
Proof.
  apply not_elem_of_dom. intros Hin%elem_of_elements.
  apply max_list_elem_of_le in Hin. unfold fresh in Hin. lia.
Qed.

(** C4, as the claim states it, fails: the function hands back the
    reference it was given, and the object behind that reference has
    changed. *)
Lemma setExpandStateRecursively_same_object :
  let '(returned, h) :=
    setExpandStateRecursively (Node "work" [] []) true 0 Examples.oneState in
  returned = 0 ∧
  Examples.oneState !! 0 = Some {[ "root" := true ]} ∧
  h !! 0 = Some (<[ "work" := true ]> {[ "root" := true ]}) ∧
  Examples.oneState !! 0 ≠ h !! 0.
Proof.
  rewrite setExpandStateRecursively_eq. unfold Examples.oneState.
  split; [done|]. rewrite lookup_alter_eq, lookup_singleton_eq. simpl.
  split; [done|]. split; [done|].
  intros Heq.
  assert (Hl : ({[ "root" := true ]} : gmap string bool) !! "work"
               = (<[ "work" := true ]> {[ "root" := true ]} : gmap string bool) !! "work")
    by congruence.
  rewrite lookup_insert_eq, lookup_singleton_ne in Hl by done. done.
Qed.

(** C4, amended: [setExpandStateRecursively] writes to the map it is given
    and returns that same map: [val] is set for the collection and all
    collections below it, the other entries stay.  A new map is made only
    by the callers [onExpandAll] and [onCollapseAll], which copy the
    result; the map they were given has changed all the same. *)
Theorem setExpandStateRecursively_in_place col val ref
    (h : gmap nat (gmap string bool)) (m : gmap string bool) :
  h !! ref = Some m →
  ∃ m' : gmap string bool,
    (∀ key, m' !! key = if decide (key ∈ collectionIds col) then Some val else m !! key) ∧
    setExpandStateRecursively col val ref h = (ref, <[ref := m']> h) ∧
    ∃ new, new ≠ ref ∧ h !! new = None ∧
      (if val then onExpandAll col ref h else onCollapseAll col ref h)
      = (new, <[new := m']> (<[ref := m']> h)).
Proof.
  intros Href. exists (expandedBelow col val m).
  assert (Halter : alter (expandedBelow col val) ref h
                   = <[ref := expandedBelow col val m]> h).
  { apply map_eq. intros k. rewrite lookup_alter, lookup_insert.
    case_decide; [subst; by rewrite Href | done]. }
  split; [apply expandedBelow_lookup|].
  split; [by rewrite setExpandStateRecursively_eq, Halter|].
  exists (fresh (<[ref := expandedBelow col val m]> h)).
  pose proof (fresh_not_in (<[ref := expandedBelow col val m]> h)) as Hfresh.
  assert (Hne : fresh (<[ref := expandedBelow col val m]> h) ≠ ref).
  { intros Heq. rewrite Heq, lookup_insert_eq in Hfresh. done. }
  split; [done|]. split.
  { by rewrite lookup_insert_ne in Hfresh. }
  destruct val; unfold onExpandAll, onCollapseAll;
    rewrite setExpandStateRecursively_eq, Halter; unfold spread;
    by rewrite lookup_insert_eq.
Qed.

Lemma setExpandStateRecursively_in_place_witness :
  ∃ m' : gmap string bool,
    (∀ key, m' !! key = if decide (key ∈ collectionIds Examples.nested)
                        then Some false else ({[ "root" := true ]} : gmap string bool) !! key) ∧
    setExpandStateRecursively Examples.nested false 0 Examples.oneState
    = (0, <[0 := m']> Examples.oneState) ∧
    ∃ new, new ≠ 0 ∧ Examples.oneState !! new = None ∧
      onCollapseAll Examples.nested 0 Examples.oneState
      = (new, <[new := m']> (<[0 := m']> Examples.oneState)).
Proof.
  apply (setExpandStateRecursively_in_place Examples.nested false 0
           Examples.oneState {[ "root" := true ]}).
  unfold Examples.oneState. apply lookup_singleton_eq.
Defined.

End ExpandFacts.

(** ** FileStore.ts: adding and removing files *)

Module FileStoreFacts.
Import JsArray JsArrayFacts FileStore.

Section AddRemove.
Context {B : Type} (be : Backend B) (rt : Runtime).
Implicit Types (st : State B) (f : ClientFile) (r : IFile).

(** C7: [addFile] asks the backend to create the file and awaits the
    answer.  When the backend rejects, the rejection is the outcome of
    [addFile] and the file list is as before; when it resolves, the new
    file is the last entry of the list and the result. *)
Theorem addFile_outcome filePath st b answer :
  let file := mkClientFile (nextObj st)
                (mkFile (generateId rt (nextObj st)) filePath []) in
  createFile be (backend st) (id (record file)) (path (record file)) = (b, answer) →
  ∃ st',
    trace st' = trace st ++ [CreateFile (id (record file)) filePath] ∧
    match answer with
    | Rejected err =>
        addFile be rt filePath st = (Rejected err, st') ∧
        fileList st' = fileList st
    | Resolved _ =>
        addFile be rt filePath st = (Resolved file, st') ∧
        fileList st' = fileList st ++ [file]
    end.
Proof.
  intros file Hcreate. simpl in Hcreate.
  unfold addFile, backendCreateFile, callBackend, newClientFile.
  unfold mbind, M_bind, bind. simpl. rewrite Hcreate.
  destruct answer as [[]|err]; simpl;
    eexists (mkState _ _ _ _ _); simpl; (split; [|split]); reflexivity.
Qed.

Lemma removalBody_step file st :
  ∃ st1 out,
    removalBody be file st = (out, st1) ∧
    trace st1 = trace st ++ removalEvents file ∧
    fileList st1 = removalFromList (fileList st) file ∧
    nextObj st1 = nextObj st ∧
    unhandled st1 = unhandled st ∧
    match file with
    | Some f => (backend st1, out) = removeFile be (backend st) (record f)
    | None => backend st1 = backend st ∧ out = Resolved tt
    end.
Proof.
  destruct file as [f|]; simpl.
  - unfold removeFile', backendRemoveFile, callBackend, emit, getFileList, setFileList.
    unfold mbind, M_bind, bind. simpl.
    destruct (removeFile be (backend st) (record f)) as [b out] eqn:Hcall.
    eexists _, _. split; [reflexivity|]. simpl.
    rewrite <- !app_assoc. done.
  - unfold emit. eexists _, _. split; [reflexivity|]. done.
Qed.

Lemma forEach_removals (files : list (option ClientFile)) :
  ∀ st, ∃ n out st',
    forEach files (removalBody be) st = (out, st') ∧
    n ≤ length files ∧
    trace st' = trace st ++ flat_map removalEvents (take n files) ∧
    fileList st' = foldl removalFromList (fileList st) (take n files) ∧
    (n < length files → ∃ err, out = Rejected err) ∧
    ((∀ b r, (removeFile be b r).2 = Resolved tt) →
     n = length files ∧ out = Resolved tt).
Proof.
  induction files as [|file files IH]; intros st.
  - exists 0, (Resolved tt), st. simpl. rewrite app_nil_r.
    repeat split; try done. lia.
  - destruct (removalBody_step file st)
      as (st1 & out1 & Hbody & Htr1 & Hfl1 & _ & _ & Hout1).
    cbn [forEach]. unfold mbind, M_bind, bind. rewrite Hbody.
    destruct out1 as [[]|err].
    + destruct (IH st1) as (n & out & st' & Hrest & Hn & Htr & Hfl & Hearly & Hall).
      exists (S n), out, st'. rewrite Hrest. simpl.
      split; [done|]. split; [lia|]. split.
      { rewrite Htr, Htr1, <- app_assoc. done. }
      split; [by rewrite Hfl, Hfl1|]. split.
      { intros Hlt. apply Hearly. lia. }
      intros Hok. destruct (Hall Hok) as [-> ->]. done.
    + exists 1, (Rejected err), st1. simpl. rewrite ?take_0. simpl.
      rewrite ?app_nil_r.
      split; [done|]. split; [lia|]. split; [done|]. split; [done|]. split.
      { intros _. by exists err. }
      intros Hok. destruct file as [f|].
      * specialize (Hok (backend st) (record f)).
        rewrite <- Hout1 in Hok. simpl in Hok. done.
      * destruct Hout1 as [_ Hout1]. done.
Qed.

Lemma forEach_removals_exact (files : list (option ClientFile)) :
  ∀ st, ∃ n out st',
    forEach files (removalBody be) st = (out, st') ∧
    n ≤ length files ∧
    trace st' = trace st ++ flat_map removalEvents (take n files) ∧
    fileList st' = foldl removalFromList (fileList st) (take n files) ∧
    (n < length files → ∃ err, out = Rejected err) ∧
    ((∀ b r, (removeFile be b r).2 = Resolved tt) →
     n = length files ∧ out = Resolved tt) ∧
    removalsUntilRejected be files (backend st) = (n, out, backend st') ∧
    (∀ k f, files !! k = Some (Some f) → k < n →
       (∀ b, ∃ err, (removeFile be b (record f)).2 = Rejected err) →
       n = S k ∧ ∃ err, out = Rejected err) ∧
    (∀ err, out = Rejected err →
       ∃ f, files !! (n - 1) = Some (Some f) ∧ 0 < n).
Proof.
  induction files as [|file files IH]; intros st.
  - exists 0, (Resolved tt), st. simpl. rewrite app_nil_r.
    repeat split; try done; try lia.
  - destruct (removalBody_step file st)
      as (st1 & out1 & Hbody & Htr1 & Hfl1 & _ & _ & Hout1).
    cbn [forEach]. unfold mbind, M_bind, bind. rewrite Hbody.
    destruct out1 as [[]|err].
    + destruct (IH st1)
        as (n & out & st' & Hrest & Hn & Htr & Hfl & Hearly & Hall & Hrun & Hstop & Hlast).
      exists (S n), out, st'. rewrite Hrest. simpl.
      split; [done|]. split; [lia|]. split.
      { rewrite Htr, Htr1, <- app_assoc. done. }
      split; [by rewrite Hfl, Hfl1|]. split.
      { intros Hlt. apply Hearly. lia. }
      split.
      { intros Hok. destruct (Hall Hok) as [-> ->]. done. }
      split.
      { destruct file as [f|].
        - rewrite <- Hout1, Hrun. done.
        - destruct Hout1 as [Hb _]. rewrite <- Hb, Hrun. done. }
      split.
      { intros k f Hk Hlt Hrej. destruct k as [|k].
        - simpl in Hk. injection Hk as ->.
          destruct (Hrej (backend st)) as [err Herr].
          rewrite <- Hout1 in Herr. simpl in Herr. done.
        - simpl in Hk. destruct (Hstop k f Hk) as [-> Hout]; [lia | done | done]. }
      intros err Hout. destruct (Hlast err Hout) as (f & Hf & Hpos).
      exists f. split; [|lia].
      destruct n as [|m]; [lia|]. simpl in Hf |- *.
      rewrite ?Nat.sub_0_r in *. exact Hf.
    + exists 1, (Rejected err), st1. simpl. rewrite ?take_0. simpl.
      rewrite ?app_nil_r.
      split; [done|]. split; [lia|]. split; [done|]. split; [done|]. split.
      { intros _. by exists err. }
      split.
      { intros Hok. destruct file as [f|].
        * specialize (Hok (backend st) (record f)).
          rewrite <- Hout1 in Hok. simpl in Hok. done.
        * destruct Hout1 as [_ Hout1]. done. }
      destruct file as [f|]; [|by destruct Hout1].
      split; [by rewrite <- Hout1|]. split.
      { intros k f' Hk Hlt _. assert (k = 0) as -> by lia.
        split; [done | by exists err]. }
      intros err' _. exists f. split; [done | lia].
Qed.

(** C9: [removeFilesById] looks up all ids first and then goes through
    them in their order: for a file that was found, it is deselected,
    disposed, removed from the list and its deletion is asked of the
    backend and awaited; only then the next id is taken.  The events are
    therefore the blocks of the first [n] ids one after the other, and [n]
    is where the answers of the backend let the loop get: a deletion that
    is accepted is followed by the next id, a deletion that is rejected
    ends the loop with that rejection, so that nothing is done about the
    ids behind it.  The loop ends early only in this way, and when the
    backend rejects no deletion every id is processed. *)
Theorem removeFilesById_sequential ids st :
  let filesToRemove := map (λ fileId, findById fileId (fileList st)) ids in
  ∃ n out st',
    removeFilesById be ids st = (out, st') ∧
    n ≤ length ids ∧
    trace st' = trace st ++ flat_map removalEvents (take n filesToRemove) ∧
    fileList st' = foldl removalFromList (fileList st) (take n filesToRemove) ∧
    (n < length ids → ∃ err, out = Rejected err) ∧
    ((∀ b r, (removeFile be b r).2 = Resolved tt) →
     n = length ids ∧ out = Resolved tt) ∧
    removalsUntilRejected be filesToRemove (backend st) = (n, out, backend st') ∧
    (∀ k f, filesToRemove !! k = Some (Some f) → k < n →
       (∀ b, ∃ err, (removeFile be b (record f)).2 = Rejected err) →
       n = S k ∧ ∃ err, out = Rejected err) ∧
    (∀ err, out = Rejected err →
       ∃ f, filesToRemove !! (n - 1) = Some (Some f) ∧ 0 < n).
Proof.
  intros filesToRemove.
  destruct (forEach_removals_exact filesToRemove st)
    as (n & out & st' & Hrun & Hn & Hrest).
  assert (Hlen : length filesToRemove = length ids)
    by (unfold filesToRemove; apply length_map).
  rewrite Hlen in *.
  exists n, out, st'. split; [|done].
  unfold removeFilesById, getFileList. unfold mbind at 1, M_bind, bind.
  exact Hrun.
Qed.

End AddRemove.

Lemma addFile_outcome_witness :
  ∃ st',
    trace st' = [CreateFile "file-3" "/pics/new.png"] ∧
    addFile FileExamples.readOnlyBackend FileExamples.inOrder "/pics/new.png"
        FileExamples.loaded
      = (Rejected "read only", st') ∧
    fileList st' = fileList FileExamples.loaded.
Proof.
  exact (addFile_outcome FileExamples.readOnlyBackend FileExamples.inOrder
           "/pics/new.png" FileExamples.loaded _ _ eq_refl).
Defined.

Lemma removeFilesById_sequential_witness :
  ∃ st',
    removeFilesById FileExamples.readOnlyBackend ["c"; "zz"; "a"] FileExamples.loaded
      = (Rejected "read only", st') ∧
    trace st' = [ Deselect FileExamples.fileC; Dispose FileExamples.fileC;
                  RemoveFile FileExamples.recC ] ∧
    fileList st' = [FileExamples.fileA; FileExamples.fileB].
Proof.
  destruct (removeFilesById_sequential FileExamples.readOnlyBackend
              ["c"; "zz"; "a"] FileExamples.loaded)
    as (n & out & st' & Hrun & _ & Htr & Hfl & _ & _ & Hanswers & _).
  vm_compute in Hanswers. injection Hanswers as Hb Hout Hn. subst n out.
  exists st'. split; [exact Hrun|]. split; [exact Htr | exact Hfl].
Defined.

End FileStoreFacts.

(** ** FileStore.ts: reconciliation *)

Module ReconcileFacts.
Import JsArray JsArrayFacts FileStore.

Section Reconcile.
Context {B : Type} (be : Backend B) (rt : Runtime).
Implicit Types (st : State B) (f : ClientFile) (r : IFile) (l : list ClientFile).

Lemma findById_Some fileId l f :
  findById fileId l = Some f → f ∈ l ∧ id (record f) = fileId.
Proof.
  unfold findById. intros [Hin Hid]%find_some.
  split; [by apply list_elem_of_In | by apply bool_decide_eq_true in Hid].
Qed.

Lemma findById_None fileId l f :
  findById fileId l = None → f ∈ l → id (record f) ≠ fileId.
Proof.
  unfold findById. intros Hnone Hin%list_elem_of_In.
  pose proof (find_none _ _ Hnone f Hin) as Hf. simpl in Hf.
  by apply bool_decide_eq_false in Hf.
Qed.

Lemma findById_is_Some fileId l f :
  f ∈ l → id (record f) = fileId → is_Some (findById fileId l).
Proof.
  intros Hin Hid. destruct (findById fileId l) eqn:Hfind; [by eexists|].
  by destruct (findById_None _ _ _ Hfind Hin).
Qed.

(** *** One callback *)

Lemma checkExistence_step r st :
  ∃ out st1,
    checkExistence be rt r st = (out, st1) ∧
    (∀ a, out = Resolved a → a = pathExists rt (path r)) ∧
    trace st1 = trace st ++ checkEvents rt r (fileList st) ∧
    fileList st1 = checkList rt r (fileList st) ∧
    nextObj st1 = nextObj st.
Proof.
  unfold checkExistence, checkEvents, checkList.
  destruct (pathExists rt (path r)) eqn:Hexists.
  - exists (Resolved true), st. unfold mret, M_ret, ret.
    rewrite app_nil_r. repeat split; try done. by intros a [= <-].
  - unfold mbind, M_bind, bind, notAwaited, backendRemoveFile, callBackend,
      getFileList.
    destruct (removeFile be (backend st) r) as [b1 out1] eqn:Hcall1. simpl.
    destruct (findById (id r) (fileList st)) as [cf|] eqn:Hfind.
    + unfold removeFile', emit, getFileList, setFileList, backendRemoveFile,
        callBackend, mbind, M_bind, bind.
      destruct out1 as [[]|err1]; simpl; rewrite Hfind; simpl;
        destruct (removeFile be b1 (record cf)) as [b2 [[]|err2]]; simpl;
        eexists _, (mkState _ _ _ _ _); (split; [reflexivity|]); simpl;
        rewrite <- ?app_assoc; simpl;
        (repeat split; try done); by intros a [= <-].
    + destruct out1 as [[]|err1]; simpl; rewrite Hfind; simpl;
        eexists _, (mkState _ _ _ _ _); (split; [reflexivity|]); simpl;
        (repeat split; try done); by intros a [= <-].
Qed.

(** *** The callbacks of a batch *)

Lemma runTurn_fold backendFiles order :
  ∀ results rejection st,
  ∃ results' rejection' st',
    foldl (runTurn (map (checkExistence be rt) backendFiles))
          (results, rejection, st) order
      = (results', rejection', st') ∧
    trace st' = trace st ++ passEvents rt backendFiles order (fileList st) ∧
    fileList st' = passList rt backendFiles order (fileList st) ∧
    nextObj st' = nextObj st ∧
    length results' = length results ∧
    (rejection' = None →
     rejection = None ∧
     ∀ i r, backendFiles !! i = Some r → i < length results →
       (i ∈ order → results' !! i = Some (Some (pathExists rt (path r)))) ∧
       (i ∉ order → results' !! i = results !! i)).
Proof.
  induction order as [|i order IH]; intros results rejection st.
  - exists results, rejection, st. simpl. rewrite app_nil_r.
    repeat split; try done.
    + intros Hin. by apply elem_of_nil in Hin.
  - cbn [foldl passEvents passList]. unfold runTurn at 2.
    rewrite list_lookup_fmap.
    destruct (backendFiles !! i) as [r|] eqn:Hi; simpl.
    + destruct (checkExistence_step r st)
        as (out & st1 & Hrun & Hres & Htr1 & Hfl1 & Hno1).
      rewrite Hrun.
      destruct out as [a|err].
      * destruct (IH (<[i := Some a]> results) rejection st1)
          as (results' & rejection' & st' & Hfold & Htr & Hfl & Hno & Hlen & Hok).
        exists results', rejection', st'. rewrite Hfold.
        split; [done|]. split; [by rewrite Htr, Htr1, Hfl1, <- app_assoc|].
        split; [by rewrite Hfl, Hfl1|]. split; [congruence|].
        split; [by rewrite Hlen, length_insert|].
        intros Hnone. destruct (Hok Hnone) as [-> Hall]. split; [done|].
        intros j rj Hj Hjlen.
        destruct (Hall j rj Hj) as [Hin Hout]; [by rewrite length_insert|].
        split.
        -- intros Hjin. destruct (decide (j ∈ order)) as [Hjo|Hjo]; [by apply Hin|].
           apply elem_of_cons in Hjin as [->|?]; [|done].
           rewrite Hout by done. rewrite list_lookup_insert_eq by done.
           assert (rj = r) as -> by congruence.
           by rewrite (Hres a eq_refl).
        -- intros Hjnot. apply not_elem_of_cons in Hjnot as [Hji Hjo].
           rewrite Hout by done. by rewrite list_lookup_insert_ne.
      * destruct (IH results (Some (default err rejection)) st1)
          as (results' & rejection' & st' & Hfold & Htr & Hfl & Hno & Hlen & Hok).
        exists results', rejection', st'. rewrite Hfold.
        split; [done|]. split; [by rewrite Htr, Htr1, Hfl1, <- app_assoc|].
        split; [by rewrite Hfl, Hfl1|]. split; [congruence|].
        split; [done|].
        intros Hnone. by destruct (Hok Hnone) as [? _].
    + destruct (IH results rejection st)
        as (results' & rejection' & st' & Hfold & Htr & Hfl & Hno & Hlen & Hok).
      exists results', rejection', st'. rewrite Hfold.
      split; [done|]. split; [done|]. split; [done|]. split; [done|].
      split; [done|].
      intros Hnone. destruct (Hok Hnone) as [-> Hall]. split; [done|].
      intros j rj Hj Hjlen. destruct (Hall j rj Hj Hjlen) as [Hin Hout].
      assert (Hji : j ≠ i) by congruence.
      split.
      * intros [->|Hjo]%elem_of_cons; [done | by apply Hin].
      * intros [_ Hjo]%not_elem_of_cons. by apply Hout.
Qed.

Lemma omap_Some_map {A C} (g : A → C) (xs : list A) :
  omap (λ o : option C, o) (map (λ x, Some (g x)) xs) = map g xs.
Proof. induction xs as [|x xs IH]; [done|]. simpl in *. by f_equal. Qed.

Lemma keepChecked_filter backendFiles :
  keepChecked backendFiles (map (λ r, pathExists rt (path r)) backendFiles)
  = filter (λ r, pathExists rt (path r) = true) backendFiles.
Proof.
  induction backendFiles as [|r rs IH]; simpl; [done|].
  rewrite filter_cons. destruct (pathExists rt (path r)) eqn:Hr.
  - rewrite decide_True by done. by rewrite IH.
  - rewrite decide_False by done. by rewrite IH.
Qed.

(** The existence checks of a batch: what they leave, and, when all of
    them have completed without a rejection, what they answer. *)
Lemma existenceChecks_run backendFiles st :
  ∃ out st1,
    existenceChecks be rt backendFiles st = (out, st1) ∧
    trace st1 = trace st ++
      passEvents rt backendFiles (completionOrder rt backendFiles) (fileList st) ∧
    fileList st1 =
      passList rt backendFiles (completionOrder rt backendFiles) (fileList st) ∧
    nextObj st1 = nextObj st ∧
    (completionOrder rt backendFiles ≡ₚ seq 0 (length backendFiles) →
     ∀ checker, out = Resolved checker →
       checker = map (λ r, pathExists rt (path r)) backendFiles).
Proof.
  unfold existenceChecks, promiseAll.
  destruct (runTurn_fold backendFiles (completionOrder rt backendFiles)
              (replicate (length (map (checkExistence be rt) backendFiles)) None)
              None st)
    as (results & rejection & st1 & Hfold & Htr & Hfl & Hno & Hlen & Hok).
  rewrite Hfold. rewrite length_replicate, length_map in Hlen.
  destruct rejection as [err|].
  - exists (Rejected err), st1. repeat split; try done.
  - eexists _, st1. split; [reflexivity|]. repeat split; try done.
    intros Hfair checker [= <-].
    destruct (Hok eq_refl) as [_ Hall].
    assert (Hresults : results = map (λ r, Some (pathExists rt (path r))) backendFiles).
    { apply list_eq. intros i. rewrite list_lookup_fmap.
      destruct (backendFiles !! i) as [r|] eqn:Hi; simpl.
      - pose proof (lookup_lt_Some _ _ _ Hi) as Hlt.
        destruct (Hall i r Hi) as [Hin _].
        { by rewrite length_replicate, length_map. }
        apply Hin. rewrite Hfair. apply elem_of_seq. lia.
      - apply lookup_ge_None. apply lookup_ge_None in Hi. lia. }
    rewrite Hresults. apply omap_Some_map.
Qed.

(** *** Rebuilding the list *)

Lemma filesFromBackend_run backendFiles :
  ∀ st,
    filesFromBackend backendFiles st
    = (Resolved (freshFiles (nextObj st) backendFiles),
       mkState (fileList st) (nextObj st + length backendFiles) (backend st)
               (trace st) (unhandled st)).
Proof.
  unfold filesFromBackend, freshFiles.
  induction backendFiles as [|r rs IH]; intros st.
  - simpl. unfold mret, M_ret, ret. destruct st; simpl. by rewrite Nat.add_0_r.
  - cbn [mapM]. unfold mbind, M_bind, bind.
    unfold newClientFileFromBackend at 1. rewrite IH. simpl.
    unfold mret, M_ret, ret. rewrite Nat.add_0_r.
    f_equal; [f_equal; f_equal|f_equal; lia].
    apply imap_ext. intros i x _. simpl. f_equal. lia.
Qed.

Lemma forEach_dispose l :
  ∀ st,
    forEach l (λ f, emit (Dispose f)) st
    = (Resolved tt,
       mkState (fileList st) (nextObj st) (backend st)
               (trace st ++ map Dispose l) (unhandled st)).
Proof.
  induction l as [|f l IH]; intros st.
  - simpl. unfold mret, M_ret, ret. rewrite app_nil_r. by destruct st.
  - cbn [forEach]. unfold mbind, M_bind, bind. unfold emit at 1.
    rewrite IH. simpl. by rewrite <- app_assoc.
Qed.

Lemma rebuild_run existing st :
  ∃ st2,
    rebuild existing st = (Resolved tt, st2) ∧
    (fileList st = [] →
       fileList st2 = freshFiles (nextObj st) existing ∧ trace st2 = trace st) ∧
    (fileList st ≠ [] → existing = [] →
       fileList st2 = [] ∧ trace st2 = trace st ++ map Dispose (fileList st)) ∧
    (fileList st ≠ [] → existing ≠ [] →
       fileList st2 = freshFiles (nextObj st) existing ∧
       trace st2 = trace st ++ map Dispose (fileList st)).
Proof.
  unfold rebuild, getFileList. unfold mbind at 1, M_bind at 1, bind at 1.
  destruct (fileList st) as [|f l] eqn:Hl.
  - rewrite bool_decide_eq_true_2 by done.
    unfold mbind, M_bind, bind, setFileList, getFileList.
    rewrite filesFromBackend_run. simpl. rewrite Hl. simpl.
    eexists. split; [reflexivity|]. simpl. repeat split; done.
  - rewrite bool_decide_eq_false_2 by done.
    destruct existing as [|r rs].
    + rewrite bool_decide_eq_true_2 by done.
      unfold clearFileList, getFileList, setFileList, mbind, M_bind, bind.
      rewrite forEach_dispose. simpl. rewrite Hl.
      eexists. split; [reflexivity|]. simpl. repeat split; done.
    + rewrite bool_decide_eq_false_2 by done.
      unfold replaceFileList, getFileList, setFileList, mbind, M_bind, bind.
      rewrite filesFromBackend_run. simpl. rewrite forEach_dispose. simpl.
      rewrite Hl.
      eexists. split; [reflexivity|]. simpl. repeat split; done.
Qed.

(** *** Which files the existence checks remove *)

Lemma checkList_sub r l f : f ∈ checkList rt r l → f ∈ l.
Proof.
  unfold checkList. destruct (pathExists rt (path r)); [done|].
  destruct (findById (id r) l); [apply elem_of_remove | done].
Qed.

Lemma checkList_disposed r l f :
  f ∈ l → f ∈ checkList rt r l ∨ Dispose f ∈ checkEvents rt r l.
Proof.
  unfold checkList, checkEvents. intros Hin.
  destruct (pathExists rt (path r)); [by left|].
  destruct (findById (id r) l) as [cf|]; [|by left].
  destruct (decide (f = cf)) as [->|Hne].
  - right. set_solver.
  - left. by apply elem_of_remove_ne.
Qed.

Lemma passList_sub backendFiles order :
  ∀ l f, f ∈ passList rt backendFiles order l → f ∈ l.
Proof.
  induction order as [|i order IH]; intros l f; simpl; [done|].
  destruct (backendFiles !! i) as [r|]; [|by apply IH].
  intros Hin. by eapply checkList_sub, IH.
Qed.

Lemma passList_disposed backendFiles order :
  ∀ l f, f ∈ l →
    f ∈ passList rt backendFiles order l ∨
    Dispose f ∈ passEvents rt backendFiles order l.
Proof.
  induction order as [|i order IH]; intros l f Hin; simpl; [by left|].
  destruct (backendFiles !! i) as [r|]; [|by apply IH].
  destruct (checkList_disposed r l f Hin) as [Hkept|Hdisp].
  - destruct (IH _ f Hkept) as [?|?]; [by left | right; set_solver].
  - right. set_solver.
Qed.

Lemma updateFromBackend_run backendFiles st checker st1 :
  existenceChecks be rt backendFiles st = (Resolved checker, st1) →
  updateFromBackend be rt backendFiles st
  = rebuild (keepChecked backendFiles checker) st1.
Proof.
  intros Hchecks. unfold updateFromBackend.
  unfold mbind at 1, M_bind at 1, bind at 1. by rewrite Hchecks.
Qed.

(** C5: once the existence checks of the batch have completed (leaving the
    state [st1]), the branches are taken in this order.  If the file list
    is empty, it becomes the objects made from the records that passed the
    check, in the order of the batch, and nothing is disposed.  Otherwise,
    if no record passed the check, every entry is disposed and the list is
    emptied.  Otherwise every entry is disposed and the list becomes the
    objects made from the records that passed. *)
Theorem updateFromBackend_branches backendFiles st checker st1 :
  completionOrder rt backendFiles ≡ₚ seq 0 (length backendFiles) →
  existenceChecks be rt backendFiles st = (Resolved checker, st1) →
  let existing := filter (λ r, pathExists rt (path r) = true) backendFiles in
  let rebuilt := freshFiles (nextObj st1) existing in
  ∃ st2,
    updateFromBackend be rt backendFiles st = (Resolved tt, st2) ∧
    (fileList st = [] → fileList st1 = []) ∧
    (fileList st1 = [] → fileList st2 = rebuilt ∧ trace st2 = trace st1) ∧
    (fileList st1 ≠ [] → existing = [] →
       fileList st2 = [] ∧ trace st2 = trace st1 ++ map Dispose (fileList st1)) ∧
    (fileList st1 ≠ [] → existing ≠ [] →
       fileList st2 = rebuilt ∧ trace st2 = trace st1 ++ map Dispose (fileList st1)).
Proof.
  intros Hfair Hchecks existing rebuilt.
  destruct (existenceChecks_run backendFiles st)
    as (out & st1' & Hrun & _ & Hfl & _ & Hanswer).
  rewrite Hchecks in Hrun. injection Hrun as <- <-.
  rewrite (updateFromBackend_run _ _ _ _ Hchecks).
  rewrite (Hanswer Hfair checker eq_refl), keepChecked_filter.
  destruct (rebuild_run existing st1) as (st2 & Hrebuild & H1 & H2 & H3).
  exists st2. split; [done|]. split; [|done].
  intros Hempty. rewrite Hfl, Hempty.
  destruct (passList rt backendFiles (completionOrder rt backendFiles) [])
    as [|f l] eqn:Hpass; [done|].
  assert (Hin : f ∈ passList rt backendFiles (completionOrder rt backendFiles) [])
    by (rewrite Hpass; left).
  apply passList_sub in Hin. by apply elem_of_nil in Hin.
Qed.

Lemma freshFiles_obj n existing f :
  f ∈ freshFiles n existing → n ≤ obj f.
Proof.
  unfold freshFiles. intros (i & r & -> & _)%elem_of_lookup_imap. simpl. lia.
Qed.

(** C2, amended: reconciliation that runs to its end keeps none of the
    file objects: every object that was in the list is disposed, a stale
    one when its record fails the existence check and the others when the
    list is rebuilt, and the list then holds newly made objects only, one
    for each record that passed the check, in the order of the batch. *)
Theorem updateFromBackend_rebuilds backendFiles st st2 :
  completionOrder rt backendFiles ≡ₚ seq 0 (length backendFiles) →
  (∀ f, f ∈ fileList st → obj f < nextObj st) →
  updateFromBackend be rt backendFiles st = (Resolved tt, st2) →
  fileList st2
    = freshFiles (nextObj st)
        (filter (λ r, pathExists rt (path r) = true) backendFiles) ∧
  ∃ events,
    trace st2 = trace st ++ events ∧
    ∀ f, f ∈ fileList st → Dispose f ∈ events ∧ f ∉ fileList st2.
Proof.
  intros Hfair Hobj Hupdate.
  destruct (existenceChecks_run backendFiles st)
    as (out & st1 & Hrun & Htr & Hfl & Hno & Hanswer).
  destruct out as [checker|err].
  2: { unfold updateFromBackend in Hupdate.
       unfold mbind at 1, M_bind at 1, bind at 1 in Hupdate.
       rewrite Hrun in Hupdate. discriminate. }
  rewrite (updateFromBackend_run _ _ _ _ Hrun) in Hupdate.
  rewrite (Hanswer Hfair checker eq_refl), keepChecked_filter in Hupdate.
  set (existing := filter (λ r, pathExists rt (path r) = true) backendFiles) in *.
  destruct (rebuild_run existing st1) as (st2' & Hrebuild & H1 & H2 & H3).
  rewrite Hrebuild in Hupdate. injection Hupdate as ->.
  rewrite Hno in *.
  assert (Hlist : fileList st2 = freshFiles (nextObj st) existing).
  { destruct (fileList st1) as [|f1 l1] eqn:Hl1; [by apply H1|].
    destruct existing as [|r rs] eqn:Hex.
    - by destruct H2.
    - by destruct H3. }
  split; [done|].
  exists (passEvents rt backendFiles (completionOrder rt backendFiles) (fileList st)
          ++ match fileList st1 with [] => [] | _ => map Dispose (fileList st1) end).
  split.
  { destruct (fileList st1) as [|f1 l1] eqn:Hl1.
    - destruct H1 as [_ ->]; [done|]. by rewrite Htr, app_nil_r.
    - destruct existing as [|r rs] eqn:Hex.
      + destruct H2 as [_ ->]; [done..|]. by rewrite Htr, app_assoc.
      + destruct H3 as [_ ->]; [done..|]. by rewrite Htr, app_assoc. }
  intros f Hin. split.
  - destruct (passList_disposed backendFiles (completionOrder rt backendFiles)
                _ f Hin) as [Hkept|Hdisp]; [|set_solver].
    rewrite <- Hfl in Hkept. apply elem_of_app. right.
    destruct (fileList st1) as [|f1 l1] eqn:Hl1; [by apply elem_of_nil in Hkept|].
    apply list_elem_of_fmap. by exists f.
  - rewrite Hlist. intros Hfresh%freshFiles_obj.
    specialize (Hobj f Hin). lia.
Qed.

(** *** How often the deletion of a record is asked of the backend *)

Lemma no_removal_filter fileId (events : list Event) :
  Forall (λ e, isRemovalOf fileId e = false) events →
  filter (λ e, isRemovalOf fileId e = true) events = [].
Proof.
  induction 1 as [|e events He _ IH]; [done|].
  rewrite filter_cons, decide_False by congruence. done.
Qed.

Lemma checkEvents_other fileId r l :
  id r ≠ fileId →
  Forall (λ e, isRemovalOf fileId e = false) (checkEvents rt r l).
Proof.
  intros Hne. unfold checkEvents.
  destruct (pathExists rt (path r)); [constructor|].
  constructor; [simpl; by apply bool_decide_eq_false|].
  destruct (findById (id r) l) as [cf|] eqn:Hfind; [|constructor].
  apply findById_Some in Hfind as [_ Hid].
  repeat constructor. simpl. apply bool_decide_eq_false. congruence.
Qed.

Lemma checkList_other fileId r l f :
  id r ≠ fileId → f ∈ l → id (record f) = fileId → f ∈ checkList rt r l.
Proof.
  intros Hne Hin Hid. unfold checkList.
  destruct (pathExists rt (path r)); [done|].
  destruct (findById (id r) l) as [cf|] eqn:Hfind; [|done].
  apply findById_Some in Hfind as [_ Hcf].
  apply elem_of_remove_ne; [congruence | done].
Qed.

Lemma passEvents_other backendFiles fileId order :
  (∀ j rj, j ∈ order → backendFiles !! j = Some rj → id rj ≠ fileId) →
  ∀ l, Forall (λ e, isRemovalOf fileId e = false)
         (passEvents rt backendFiles order l).
Proof.
  induction order as [|j order IH]; intros Hother l; simpl; [constructor|].
  assert (Hrest : ∀ k rk, k ∈ order → backendFiles !! k = Some rk → id rk ≠ fileId).
  { intros k rk Hk. apply Hother. by right. }
  destruct (backendFiles !! j) as [rj|] eqn:Hj; [|by apply IH].
  apply Forall_app. split; [|by apply IH].
  apply checkEvents_other. eapply Hother; [left | done].
Qed.

Lemma distinct_ids backendFiles i j ri rj :
  NoDup (map id backendFiles) →
  backendFiles !! i = Some ri → backendFiles !! j = Some rj →
  i ≠ j → id ri ≠ id rj.
Proof.
  intros Hnodup Hi Hj Hne Heq. apply Hne.
  eapply NoDup_lookup; [exact Hnodup | |]; rewrite list_lookup_fmap.
  - by rewrite Hi.
  - rewrite Hj. simpl. by rewrite Heq.
Qed.

Lemma passEvents_block backendFiles order :
  NoDup order → NoDup (map id backendFiles) →
  ∀ l i r,
    backendFiles !! i = Some r → i ∈ order →
    pathExists rt (path r) = false →
    (∃ f, f ∈ l ∧ id (record f) = id r) →
    ∃ before after clientFile,
      passEvents rt backendFiles order l
      = before ++ [RemoveFile r; Deselect clientFile; Dispose clientFile;
                   RemoveFile (record clientFile)] ++ after ∧
      clientFile ∈ l ∧ id (record clientFile) = id r ∧
      Forall (λ e, isRemovalOf (id r) e = false) before ∧
      Forall (λ e, isRemovalOf (id r) e = false) after.
Proof.
  intros Horder Hids. induction Horder as [|j order Hj Horder IH];
    intros l i r Hi Hin Hstale (f & Hf & Hfid).
  { by apply elem_of_nil in Hin. }
  cbn [passEvents].
  destruct (decide (i = j)) as [<-|Hij].
  - rewrite Hi. unfold checkEvents at 1, checkList at 1. rewrite Hstale.
    destruct (findById (id r) l) as [cf|] eqn:Hfind.
    2: { by destruct (findById_None _ _ _ Hfind Hf). }
    destruct (findById_Some _ _ _ Hfind) as [Hcf Hcfid].
    exists [], (passEvents rt backendFiles order (remove cf l)), cf.
    split; [done|]. split; [done|]. split; [done|]. split; [constructor|].
    apply passEvents_other. intros k rk Hk Hrk.
    eapply distinct_ids; [exact Hids | exact Hrk | exact Hi |].
    intros ->. done.
  - assert (Hin' : i ∈ order) by set_solver.
    destruct (backendFiles !! j) as [rj|] eqn:Hjr.
    + assert (Hne : id rj ≠ id r) by (eapply distinct_ids; eauto).
      destruct (IH (checkList rt rj l) i r Hi Hin' Hstale)
        as (before & after & cf & Heq & Hcf & Hcfid & Hb & Ha).
      { exists f. split; [by apply checkList_other with (id r)|done]. }
      exists (checkEvents rt rj l ++ before), after, cf.
      split; [by rewrite Heq, <- app_assoc|].
      split; [by eapply checkList_sub|]. split; [done|].
      split; [|done]. apply Forall_app. split; [|done].
      by apply checkEvents_other.
    + destruct (IH l i r Hi Hin' Hstale) as (before & after & cf & Heq & ?).
      { by exists f. }
      by exists before, after, cf.
Qed.

Lemma updateFromBackend_trace backendFiles st :
  ∃ out st' disposed,
    updateFromBackend be rt backendFiles st = (out, st') ∧
    trace st' = trace st
      ++ passEvents rt backendFiles (completionOrder rt backendFiles) (fileList st)
      ++ map Dispose disposed.
Proof.
  destruct (existenceChecks_run backendFiles st)
    as (out & st1 & Hrun & Htr & _ & _ & _).
  destruct out as [checker|err].
  - rewrite (updateFromBackend_run _ _ _ _ Hrun).
    destruct (rebuild_run (keepChecked backendFiles checker) st1)
      as (st2 & Hrebuild & H1 & H2 & H3).
    rewrite Hrebuild.
    destruct (fileList st1) as [|f1 l1] eqn:Hl1.
    + exists (Resolved tt), st2, []. split; [done|].
      destruct H1 as [_ ->]; [done|]. by rewrite Htr, app_nil_r.
    + exists (Resolved tt), st2, (f1 :: l1). split; [done|].
      destruct (keepChecked backendFiles checker) as [|r rs].
      * destruct H2 as [_ ->]; [done..|]. by rewrite Htr, app_assoc.
      * destruct H3 as [_ ->]; [done..|]. by rewrite Htr, app_assoc.
  - exists (Rejected err), st1, []. split.
    + unfold updateFromBackend.
      unfold mbind at 1, M_bind at 1, bind at 1. by rewrite Hrun.
    + by rewrite Htr, app_nil_r.
Qed.

(** The two requests for a stale record that has a file in the list,
    and what the answer to the second does to the callback. *)
Lemma checkExistence_stale r st cf :
  pathExists rt (path r) = false →
  findById (id r) (fileList st) = Some cf →
  ∃ b1 first b2 second st1,
    removeFile be (backend st) r = (b1, first) ∧
    removeFile be b1 (record cf) = (b2, second) ∧
    checkExistence be rt r st
    = (match second with
       | Resolved _ => Resolved false
       | Rejected err => Rejected err
       end, st1).
Proof.
  intros Hstale Hfind. unfold checkExistence. rewrite Hstale.
  unfold mbind, M_bind, bind, notAwaited, backendRemoveFile, callBackend,
    getFileList.
  destruct (removeFile be (backend st) r) as [b1 first] eqn:Hfirst.
  exists b1, first.
  destruct (removeFile be b1 (record cf)) as [b2 second] eqn:Hsecond.
  exists b2, second.
  unfold removeFile', emit, getFileList, setFileList, backendRemoveFile,
    callBackend, mbind, M_bind, bind.
  destruct first as [[]|err1]; simpl; rewrite Hfind; simpl; rewrite Hsecond;
    destruct second as [[]|err2]; simpl; eexists; done.
Qed.

Lemma runTurn_fold_block backendFiles order :
  NoDup order → NoDup (map id backendFiles) →
  ∀ results rejection st i r,
    backendFiles !! i = Some r → i ∈ order →
    pathExists rt (path r) = false →
    (∃ f, f ∈ fileList st ∧ id (record f) = id r) →
    ∃ before after clientFile b0 b1 b2 first second,
      passEvents rt backendFiles order (fileList st)
      = before ++ [RemoveFile r; Deselect clientFile; Dispose clientFile;
                   RemoveFile (record clientFile)] ++ after ∧
      clientFile ∈ fileList st ∧ id (record clientFile) = id r ∧
      Forall (λ e, isRemovalOf (id r) e = false) before ∧
      Forall (λ e, isRemovalOf (id r) e = false) after ∧
      removeFile be b0 r = (b1, first) ∧
      removeFile be b1 (record clientFile) = (b2, second) ∧
      (∀ err, second = Rejected err →
         (foldl (runTurn (map (checkExistence be rt) backendFiles))
                (results, rejection, st) order).1.2 ≠ None).
Proof.
  intros Horder Hids. induction Horder as [|j order Hj Horder IH];
    intros results rejection st i r Hi Hin Hstale (f & Hf & Hfid).
  { by apply elem_of_nil in Hin. }
  cbn [passEvents foldl].
  destruct (decide (i = j)) as [<-|Hij].
  - rewrite Hi. unfold checkEvents at 1, checkList at 1. rewrite Hstale.
    destruct (findById (id r) (fileList st)) as [cf|] eqn:Hfind.
    2: { by destruct (findById_None _ _ _ Hfind Hf). }
    destruct (findById_Some _ _ _ Hfind) as [Hcf Hcfid].
    destruct (checkExistence_stale r st cf Hstale Hfind)
      as (b1 & first & b2 & second & st1 & Hfirst & Hsecond & Hrun).
    exists [], (passEvents rt backendFiles order (remove cf (fileList st))), cf,
      (backend st), b1, b2, first, second.
    split; [done|]. split; [done|]. split; [done|]. split; [constructor|].
    split.
    { apply passEvents_other. intros k rk Hk Hrk.
      eapply distinct_ids; [exact Hids | exact Hrk | exact Hi |].
      intros ->. done. }
    split; [done|]. split; [done|].
    intros err ->. unfold runTurn at 2.
    rewrite list_lookup_fmap, Hi. simpl. rewrite Hrun.
    destruct (runTurn_fold backendFiles order results
                (Some (default err rejection)) st1)
      as (results' & rejection' & st' & -> & _ & _ & _ & _ & Hnone).
    simpl. intros ->. by destruct (Hnone eq_refl).
  - assert (Hin' : i ∈ order) by set_solver.
    unfold runTurn at 2. rewrite list_lookup_fmap.
    destruct (backendFiles !! j) as [rj|] eqn:Hjr; simpl.
    + assert (Hne : id rj ≠ id r) by (eapply distinct_ids; eauto).
      destruct (checkExistence_step rj st)
        as (out & st1 & Hrun & _ & _ & Hfl1 & _).
      rewrite Hrun.
      assert (Hstill : ∃ f', f' ∈ fileList st1 ∧ id (record f') = id r).
      { exists f. split; [|done]. rewrite Hfl1.
        by apply checkList_other with (id r). }
      destruct out as [a|err];
        [destruct (IH (<[j := Some a]> results) rejection st1 i r
                     Hi Hin' Hstale Hstill)
           as (before & after & cf & b0 & b1 & b2 & first & second
               & Heq & Hcf & Hcfid & Hb & Ha & Hfirst & Hsecond & Hrej)
        |destruct (IH results (Some (default err rejection)) st1 i r
                     Hi Hin' Hstale Hstill)
           as (before & after & cf & b0 & b1 & b2 & first & second
               & Heq & Hcf & Hcfid & Hb & Ha & Hfirst & Hsecond & Hrej)];
        rewrite Hfl1 in Heq, Hcf;
        exists (checkEvents rt rj (fileList st) ++ before), after, cf,
          b0, b1, b2, first, second;
        (split; [by rewrite Heq, <- app_assoc|]);
        (split; [by eapply checkList_sub|]); (split; [done|]);
        (split; [apply Forall_app; split; [by apply checkEvents_other | done]|]);
        (split; [done|]); (split; [done|]); (split; [done|]); exact Hrej.
    + destruct (IH results rejection st i r Hi Hin' Hstale)
        as (before & after & cf & b0 & b1 & b2 & first & second & Hrest).
      { by exists f. }
      by exists before, after, cf, b0, b1, b2, first, second.
Qed.

(** How [updateFromBackend] ends, by whether a callback was rejected. *)
Lemma updateFromBackend_by_rejection backendFiles st results rejection st1 :
  foldl (runTurn (map (checkExistence be rt) backendFiles))
        (replicate (length (map (checkExistence be rt) backendFiles)) None, None, st)
        (completionOrder rt backendFiles)
  = (results, rejection, st1) →
  match rejection with
  | Some err => updateFromBackend be rt backendFiles st = (Rejected err, st1)
  | None => ∃ st2, updateFromBackend be rt backendFiles st = (Resolved tt, st2)
  end.
Proof.
  intros Hfold. unfold updateFromBackend, existenceChecks, promiseAll.
  unfold mbind, M_bind, bind. cbv beta. rewrite Hfold.
  destruct rejection as [err|]; [done|].
  match goal with
  | |- ∃ st2, rebuild ?existing st1 = _ =>
      destruct (rebuild_run existing st1) as (st2 & Hrebuild & _)
  end.
  by exists st2.
Qed.

(** With a backend that accepts a deletion when it is asked again right
    after it was asked, no callback is rejected. *)
Lemma runTurn_fold_repeats_accepted backendFiles :
  (∀ b q q' b1 answer,
     removeFile be b q = (b1, answer) → id q' = id q →
     (removeFile be b1 q').2 = Resolved tt) →
  ∀ order results rejection st,
    (foldl (runTurn (map (checkExistence be rt) backendFiles))
           (results, rejection, st) order).1.2 = rejection.
Proof.
  intros Hrepeat. induction order as [|i order IH]; intros results rejection st;
    [done|].
  cbn [foldl]. unfold runTurn at 2. rewrite list_lookup_fmap.
  destruct (backendFiles !! i) as [r|]; simpl; [|apply IH].
  assert (Hresolved : ∃ a st1, checkExistence be rt r st = (Resolved a, st1)).
  { destruct (pathExists rt (path r)) eqn:Hstale.
    - unfold checkExistence. rewrite Hstale. by eexists _, _.
    - destruct (findById (id r) (fileList st)) as [cf|] eqn:Hfind.
      + destruct (checkExistence_stale r st cf Hstale Hfind)
          as (b1 & first & b2 & second & st1 & Hfirst & Hsecond & ->).
        destruct (findById_Some _ _ _ Hfind) as [_ Hid].
        pose proof (Hrepeat _ _ (record cf) _ _ Hfirst Hid) as Hacc.
        rewrite Hsecond in Hacc. simpl in Hacc. subst second. by eexists _, _.
      + unfold checkExistence. rewrite Hstale.
        unfold mbind, M_bind, bind, notAwaited, backendRemoveFile, callBackend,
          getFileList.
        destruct (removeFile be (backend st) r) as [b1 [[]|err1]]; simpl;
          rewrite Hfind; by eexists _, _. }
  destruct Hresolved as (a & st1 & ->). apply IH.
Qed.

(** C10: in a batch whose records have different ids, a record whose path
    fails the existence check and whose id is that of a file of the list
    has its deletion asked of the backend twice: once for the record
    itself, and at once again through [removeFile] for the file of the
    list, which is deselected and disposed in between.  No other deletion
    of that id is asked for.  The first request is not awaited, the second
    is: when the backend rejects the second, in the state the first left
    it in, [updateFromBackend] is rejected and the list is not rebuilt
    (what it holds in the end was there before, and no object is made);
    with a backend that accepts a deletion asked again right after it was
    asked, as an idempotent [removeFile] does, [updateFromBackend]
    resolves. *)
Theorem updateFromBackend_deletes_twice backendFiles st r :
  completionOrder rt backendFiles ≡ₚ seq 0 (length backendFiles) →
  NoDup (map id backendFiles) →
  r ∈ backendFiles →
  pathExists rt (path r) = false →
  (∃ f, f ∈ fileList st ∧ id (record f) = id r) →
  ∃ out st' before after clientFile,
    updateFromBackend be rt backendFiles st = (out, st') ∧
    trace st' = trace st ++ before
      ++ [RemoveFile r; Deselect clientFile; Dispose clientFile;
          RemoveFile (record clientFile)]
      ++ after ∧
    clientFile ∈ fileList st ∧ id (record clientFile) = id r ∧
    filter (λ e, isRemovalOf (id r) e = true) before = [] ∧
    filter (λ e, isRemovalOf (id r) e = true) after = [] ∧
    filter (λ e, isRemovalOf (id r) e = true)
      (before ++ [RemoveFile r; Deselect clientFile; Dispose clientFile;
                  RemoveFile (record clientFile)] ++ after)
    = [RemoveFile r; RemoveFile (record clientFile)] ∧
    (∃ b0 b1 b2 first second,
       removeFile be b0 r = (b1, first) ∧
       removeFile be b1 (record clientFile) = (b2, second) ∧
       ∀ err, second = Rejected err →
         (∃ err', out = Rejected err') ∧
         nextObj st' = nextObj st ∧
         ∀ f, f ∈ fileList st' → f ∈ fileList st) ∧
    ((∀ b q q' b1 answer,
        removeFile be b q = (b1, answer) → id q' = id q →
        (removeFile be b1 q').2 = Resolved tt) →
     out = Resolved tt) ∧
    ((∀ b q q' b1 answer,
        removeFile be b q = (b1, answer) → id q' = id q →
        ∃ err, (removeFile be b1 q').2 = Rejected err) →
     (∃ err, out = Rejected err) ∧
     nextObj st' = nextObj st ∧
     ∀ f, f ∈ fileList st' → f ∈ fileList st).
Proof.
  intros Hfair Hids Hr Hstale Hfile.
  apply list_elem_of_lookup in Hr as [i Hi].
  assert (Horder : NoDup (completionOrder rt backendFiles)).
  { rewrite Hfair. apply NoDup_seq. }
  assert (Hin : i ∈ completionOrder rt backendFiles).
  { rewrite Hfair. apply elem_of_seq. apply lookup_lt_Some in Hi. lia. }
  set (start := (replicate (length (map (checkExistence be rt) backendFiles)) None
                 : list (option bool))).
  destruct (runTurn_fold_block backendFiles _ Horder Hids start None
              st i r Hi Hin Hstale Hfile)
    as (before & after & cf & b0 & b1 & b2 & first & second
        & Heq & Hcf & Hcfid & Hb & Ha & Hfirst & Hsecond & Hrej).
  destruct (runTurn_fold backendFiles (completionOrder rt backendFiles) start None st)
    as (results & rejection & st1 & Hfold & _ & Hfl1 & Hno1 & _).
  pose proof (updateFromBackend_by_rejection _ _ _ _ _ Hfold) as Hby.
  pose proof (runTurn_fold_repeats_accepted backendFiles) as Hrepeats.
  rewrite Hfold in Hrej. simpl in Hrej.
  destruct (updateFromBackend_trace backendFiles st)
    as (out & st' & disposed & Hrun & Htr).
  exists out, st', before, (after ++ map Dispose disposed), cf.
  split; [done|]. split.
  { rewrite Htr, Heq. by rewrite <- !app_assoc. }
  assert (Hafter : filter (λ e, isRemovalOf (id r) e = true)
                     (after ++ map Dispose disposed) = []).
  { apply no_removal_filter, Forall_app. split; [done|].
    apply Forall_forall. intros e (f & -> & _)%list_elem_of_fmap. done. }
  split; [done|]. split; [done|]. split; [by apply no_removal_filter|].
  split; [done|].
  split.
  { rewrite filter_app, (no_removal_filter _ _ Hb). cbn [app].
    rewrite filter_cons_True by (simpl; by apply bool_decide_eq_true).
    rewrite filter_cons_False by (simpl; congruence).
    rewrite filter_cons_False by (simpl; congruence).
    rewrite filter_cons_True by (simpl; by apply bool_decide_eq_true).
    by rewrite Hafter. }
  assert (Hharm : ∀ err, second = Rejected err →
            (∃ err', out = Rejected err') ∧
            nextObj st' = nextObj st ∧
            ∀ f, f ∈ fileList st' → f ∈ fileList st).
  { intros err Hsec. specialize (Hrej err Hsec).
    destruct rejection as [e|]; [|done].
    rewrite Hrun in Hby. injection Hby as -> ->.
    split; [by exists e|]. split; [done|].
    intros f Hf. rewrite Hfl1 in Hf. by eapply passList_sub. }
  split; [by exists b0, b1, b2, first, second|].
  split.
  - intros Hacc.
    specialize (Hrepeats Hacc (completionOrder rt backendFiles) start None st).
    rewrite Hfold in Hrepeats. simpl in Hrepeats. subst rejection.
    destruct Hby as [st2 Hby]. rewrite Hrun in Hby. by injection Hby as -> _.
  - intros Hrejects.
    destruct (Hrejects _ _ (record cf) _ _ Hfirst Hcfid) as [err Herr].
    rewrite Hsecond in Herr. simpl in Herr. by apply (Hharm err).
Qed.

(** *** Failures of the backend on the read paths *)

Lemma fetchAllFiles_resolves st : (fetchAllFiles be rt st).1 = Resolved tt.
Proof.
  unfold fetchAllFiles, tryCatch, mbind, M_bind, bind, backendFetchFiles,
    callBackend, notAwaited, emit.
  destruct (fetchFiles be (backend st)) as [b [fetched|err]]; simpl; [|done].
  by destruct (updateFromBackend be rt fetched _) as [[[]|?] ?].
Qed.

Lemma fetchFilesByTagIDs_resolves tagIds st :
  (fetchFilesByTagIDs be rt tagIds st).1 = Resolved tt.
Proof.
  unfold fetchFilesByTagIDs. case_bool_decide; [apply fetchAllFiles_resolves|].
  unfold tryCatch, mbind, M_bind, bind, backendSearchFiles,
    callBackend, notAwaited, emit.
  destruct (searchFiles be (backend st) tagIds) as [b [fetched|err]]; simpl; [|done].
  by destruct (updateFromBackend be rt fetched _) as [[[]|?] ?].
Qed.

(** C6, amended: neither [fetchAllFiles] nor [fetchFilesByTagIDs] ever
    rejects; when the call of [fetchFiles], or of [searchFiles] for a
    non-empty list of tags, is rejected by the backend, the error is
    caught and logged inside the operation and the file list is left as it
    was.  ([fetchFilesByTagIDs] with no tags is [fetchAllFiles].) *)
Theorem fetch_failure_is_logged st b err :
  (fetchFiles be (backend st) = (b, Rejected err) →
   fetchAllFiles be rt st
   = (Resolved tt,
      mkState (fileList st) (nextObj st) b
              (trace st ++ [FetchFiles; Log "Could not load all files" err])
              (unhandled st))) ∧
  (∀ tagIds, tagIds ≠ [] →
   searchFiles be (backend st) tagIds = (b, Rejected err) →
   fetchFilesByTagIDs be rt tagIds st
   = (Resolved tt,
      mkState (fileList st) (nextObj st) b
              (trace st ++ [SearchFiles tagIds;
                            Log "Could not find files based on tag search" err])
              (unhandled st))) ∧
  fetchFilesByTagIDs be rt [] st = fetchAllFiles be rt st ∧
  (fetchAllFiles be rt st).1 = Resolved tt ∧
  (∀ tagIds, (fetchFilesByTagIDs be rt tagIds st).1 = Resolved tt).
Proof.
  split; [|split; [|split; [|split]]].
  - intros Hfetch.
    unfold fetchAllFiles, tryCatch, mbind, M_bind, bind, backendFetchFiles,
      callBackend, emit.
    rewrite Hfetch. simpl. by rewrite <- app_assoc.
  - intros tagIds Hne Hsearch. unfold fetchFilesByTagIDs.
    rewrite bool_decide_eq_false_2 by (by destruct tagIds).
    unfold tryCatch, mbind, M_bind, bind, backendSearchFiles, callBackend, emit.
    rewrite Hsearch. simpl. by rewrite <- app_assoc.
  - done.
  - apply fetchAllFiles_resolves.
  - intros tagIds. apply fetchFilesByTagIDs_resolves.
Qed.

End Reconcile.

(** *** Examples *)

Import FileExamples.

Lemma inOrder_fair batch :
  completionOrder inOrder batch ≡ₚ seq 0 (length batch).
Proof. reflexivity. Qed.

Lemma lastFirst_fair batch :
  completionOrder lastFirst batch ≡ₚ seq 0 (length batch).
Proof. simpl. symmetry. apply Permutation_rev. Qed.

(** C2, as the claim states it, fails: the path of the one file of the
    list exists and the backend reports its record, together with
    another; after reconciliation that file object has been disposed and
    the list holds two new objects. *)
Lemma updateFromBackend_replaces_surviving_file :
  pathExists inOrder (path (record fileA)) = true ∧
  fileA ∈ fileList onlyA ∧
  ∃ st2,
    updateFromBackend memoryBackend inOrder [recA; recB] onlyA = (Resolved tt, st2) ∧
    fileList st2 = [mkClientFile 1 recA; mkClientFile 2 recB] ∧
    trace st2 = [Dispose fileA] ∧
    fileA ∉ fileList st2.
Proof.
  split; [vm_compute; reflexivity|].
  split; [simpl; set_solver|].
  eexists. split; [vm_compute; reflexivity|]. simpl.
  split; [done|]. split; [done|].
  rewrite !not_elem_of_cons. split; [discriminate|].
  split; [discriminate | apply not_elem_of_nil].
Qed.

(** C6, as the claim states it, fails: the backend answers [fetchFiles]
    but rejects deletions, and one record of the batch is stale.
    [fetchAllFiles] resolves and nothing is logged, the two rejections are
    left unhandled, and the file of the stale record is gone from the
    list. *)
Lemma fetchAllFiles_unlogged_failure :
  (removeFile readOnlyBackend (backend loaded) recC).2 = Rejected "read only" ∧
  fetchAllFiles readOnlyBackend inOrder loaded
  = (Resolved tt,
     mkState [fileA; fileB] 3 [recA; recB; recC]
             [FetchFiles; RemoveFile recC; Deselect fileC; Dispose fileC;
              RemoveFile recC]
             ["read only"; "read only"]) ∧
  fileList loaded = [fileA; fileB; fileC].
Proof. split; [done|]. split; [vm_compute; reflexivity | done]. Qed.

Lemma loaded_objects f : f ∈ fileList loaded → obj f < nextObj loaded.
Proof.
  simpl. rewrite !elem_of_cons.
  intros [->|[->|[->|Hf]]]; simpl; try lia. by apply elem_of_nil in Hf.
Qed.

Lemma updateFromBackend_rebuilds_witness :
  ∃ st2,
    updateFromBackend memoryBackend lastFirst [recA; recB; recC] loaded
      = (Resolved tt, st2) ∧
    fileList st2 = [mkClientFile 3 recA; mkClientFile 4 recB] ∧
    ∃ events,
      trace st2 = trace loaded ++ events ∧
      ∀ f, f ∈ fileList loaded → Dispose f ∈ events ∧ f ∉ fileList st2.
Proof.
  eexists. split; [vm_compute; reflexivity|].
  apply (updateFromBackend_rebuilds memoryBackend lastFirst
           [recA; recB; recC] loaded _ (lastFirst_fair _) loaded_objects).
  vm_compute. reflexivity.
Defined.

Lemma updateFromBackend_branches_witness :
  ∃ st2,
    updateFromBackend memoryBackend lastFirst [recA; recB; recC] loaded
      = (Resolved tt, st2) ∧
    fileList st2 = [mkClientFile 3 recA; mkClientFile 4 recB] ∧
    trace st2 = [RemoveFile recC; Deselect fileC; Dispose fileC; RemoveFile recC;
                 Dispose fileA; Dispose fileB].
Proof.
  destruct (updateFromBackend_branches memoryBackend lastFirst
              [recA; recB; recC] loaded [true; true; false]
              (mkState [fileA; fileB] 3 [recA; recB]
                 [RemoveFile recC; Deselect fileC; Dispose fileC; RemoveFile recC] [])
              (lastFirst_fair _))
    as (st2 & Hrun & _ & _ & _ & Hreplace).
  { vm_compute. reflexivity. }
  exists st2. split; [exact Hrun|].
  apply Hreplace; vm_compute; discriminate.
Defined.

Lemma fetch_failure_is_logged_witness :
  fetchAllFiles downBackend inOrder loaded
  = (Resolved tt,
     mkState [fileA; fileB; fileC] 3 [recA; recB; recC]
             [FetchFiles; Log "Could not load all files" "backend down"] []) ∧
  fetchFilesByTagIDs downBackend inOrder ["t"] loaded
  = (Resolved tt,
     mkState [fileA; fileB; fileC] 3 [recA; recB; recC]
             [SearchFiles ["t"];
              Log "Could not find files based on tag search" "backend down"] []).
Proof.
  destruct (fetch_failure_is_logged downBackend inOrder loaded
              [recA; recB; recC] "backend down") as (Hfetch & Hsearch & _).
  split; [exact (Hfetch eq_refl)|].
  apply (Hsearch ["t"]); [discriminate | reflexivity].
Defined.

Lemma strictBackend_rejects_repeats b q q' b1 answer :
  removeFile strictBackend b q = (b1, answer) → id q' = id q →
  ∃ err, (removeFile strictBackend b1 q').2 = Rejected err.
Proof.
  intros Hfirst Hid. exists "no such file".
  assert (Hgone : existsb (λ f, bool_decide (id f = id q')) b1 = false).
  { rewrite Hid. simpl in Hfirst.
    destruct (existsb (λ f, bool_decide (id f = id q)) b) eqn:Hheld;
      injection Hfirst as <- _; [|done].
    clear Hheld. induction b as [|f b IH]; [done|]. simpl.
    destruct (bool_decide (id f = id q)) eqn:Hf; simpl; [done|].
    by rewrite Hf. }
  simpl. by rewrite Hgone.
Qed.

Lemma updateFromBackend_deletes_twice_witness :
  (∃ st' before after clientFile,
     updateFromBackend memoryBackend lastFirst [recA; recB; recC] loaded
     = (Resolved tt, st') ∧
     trace st' = trace loaded ++ before
       ++ [RemoveFile recC; Deselect clientFile; Dispose clientFile;
           RemoveFile (record clientFile)]
       ++ after ∧
     clientFile ∈ fileList loaded ∧ id (record clientFile) = id recC ∧
     filter (λ e, isRemovalOf (id recC) e = true)
       (before ++ [RemoveFile recC; Deselect clientFile; Dispose clientFile;
                   RemoveFile (record clientFile)] ++ after)
     = [RemoveFile recC; RemoveFile (record clientFile)]) ∧
  (∃ err st',
     updateFromBackend strictBackend lastFirst [recA; recB; recC] loaded
     = (Rejected err, st') ∧
     nextObj st' = nextObj loaded ∧
     ∀ f, f ∈ fileList st' → f ∈ fileList loaded).
Proof.
  assert (Hids : NoDup (map id [recA; recB; recC])).
  { apply (bool_decide_unpack _). vm_compute. exact I. }
  assert (Hin : recC ∈ [recA; recB; recC]) by set_solver.
  assert (Hfile : ∃ f, f ∈ fileList loaded ∧ id (record f) = id recC).
  { exists fileC. split; [set_solver | reflexivity]. }
  split.
  - destruct (updateFromBackend_deletes_twice memoryBackend lastFirst
                [recA; recB; recC] loaded recC (lastFirst_fair _)
                Hids Hin eq_refl Hfile)
      as (out & st' & before & after & cf & Hrun & Htrace & Hcf & Hid
          & _ & _ & Hboth & _ & Haccepted & _).
    rewrite (Haccepted (λ _ _ _ _ _ _ _, eq_refl)) in Hrun.
    by exists st', before, after, cf.
  - destruct (updateFromBackend_deletes_twice strictBackend lastFirst
                [recA; recB; recC] loaded recC (lastFirst_fair _)
                Hids Hin eq_refl Hfile)
      as (out & st' & _ & _ & _ & Hrun & _ & _ & _ & _ & _ & _ & _ & _
          & Hrejected).
    destruct (Hrejected strictBackend_rejects_repeats)
      as ([err ->] & Hnext & Hlist).
    by exists err, st'.
Defined.

End ReconcileFacts.

(** ** TagTree.tsx: more on reparenting *)

Module MoveFacts.
Import JsArray JsArrayFacts TagTree TagTreeFacts.

Section Lists.
Context {A : Type} `{EqDecision A}.
Implicit Types (a : A) (x : list A) (ls : list (list A)).

Lemma remove_perm a x : a ∈ x → a :: remove a x ≡ₚ x.
Proof.
  induction x as [|b x IH]; simpl.
  - intros Hin. by apply elem_of_nil in Hin.
  - destruct (decide (b = a)) as [->|Hne]; [done|].
    intros [->|Hin]%elem_of_cons; [done|].
    rewrite Permutation_swap. by rewrite IH.
Qed.

Lemma spliceInsert_perm start a x : spliceInsert start a x ≡ₚ a :: x.
Proof.
  unfold spliceInsert. rewrite <- Permutation_middle.
  by rewrite take_drop.
Qed.

Lemma concat_alter_add (f : list A → list A) a ls i :
  (∀ x, f x ≡ₚ a :: x) → i < length ls →
  concat (alter f i ls) ≡ₚ a :: concat ls.
Proof.
  intros Hf. revert i. induction ls as [|x ls IH]; intros i Hi; simpl in Hi; [lia|].
  destruct i as [|i].
  - simpl. by rewrite Hf.
  - change (concat (alter f (S i) (x :: ls))) with (x ++ concat (alter f i ls)).
    rewrite IH by lia. simpl. by rewrite Permutation_middle.
Qed.

Lemma concat_alter_remove a ls i x :
  ls !! i = Some x → a ∈ x →
  a :: concat (alter (remove a) i ls) ≡ₚ concat ls.
Proof.
  revert i. induction ls as [|y ls IH]; intros i Hi Hin; [done|].
  destruct i as [|i].
  - simpl in *. injection Hi as ->. by rewrite app_comm_cons, remove_perm.
  - change (concat (alter (remove a) (S i) (y :: ls)))
      with (y ++ concat (alter (remove a) i ls)).
    rewrite Permutation_middle. simpl. by rewrite (IH i Hi Hin).
Qed.

Lemma spliceInsert_remove x a i :
  firstIndex x a = Some i → spliceInsert (Z.of_nat i) a (remove a x) = x.
Proof.
  revert i. induction x as [|b x IH]; intros i; simpl; [done|].
  destruct (decide (b = a)) as [->|Hne].
  - intros [= <-]. unfold spliceInsert, spliceStart. simpl.
    by rewrite Z.min_l by lia.
  - destruct (firstIndex x a) as [j|] eqn:Hj; simpl; [|done].
    intros [= <-]. specialize (IH j eq_refl).
    unfold spliceInsert, spliceStart in *. simpl length.
    destruct (Z.ltb_spec (Z.of_nat (S j)) 0); [lia|].
    destruct (Z.ltb_spec (Z.of_nat j) 0); [lia|].
    replace (Z.to_nat (Z.min (Z.of_nat (S j)) (Z.of_nat (S (length (remove a x))))))
      with (S (Z.to_nat (Z.min (Z.of_nat j) (Z.of_nat (length (remove a x))))))
      by lia.
    simpl. by rewrite IH.
Qed.

End Lists.

Lemma subCollections_alter g i store :
  map subCollections (alter (setSubCollections g) i store)
  = alter g i (map subCollections store).
Proof. apply list_fmap_alter, Forall_forall. by intros []. Qed.

Lemma tags_alter g i store :
  map tags (alter (setTags g) i store) = alter g i (map tags store).
Proof. apply list_fmap_alter, Forall_forall. by intros []. Qed.

Lemma alter_keeps {C} (proj : ClientTagCollection → C) f i store :
  (∀ c, proj (f c) = proj c) → map proj (alter f i store) = map proj store.
Proof.
  intros Hf. revert i.
  induction store as [|c store IH]; intros [|i]; simpl; try done.
  - by rewrite Hf.
  - f_equal. apply IH.
Qed.

(** A collection that has a parent is detached from it and becomes the
    last sub-collection of the collection it is moved to; nothing else
    changes. *)
Theorem onMoveCollection_moves store p col parent target movedId :
  find (λ c, includes (subCollections c) movedId) store = Some (p, parent) →
  store !! col = Some target →
  p ≠ col →
  NoDup (subCollections parent) →
  let store' := onMoveCollection col movedId store in
  (store' !! p = Some (setSubCollections (remove movedId) parent)) ∧
  (movedId ∉ remove movedId (subCollections parent)) ∧
  (store' !! col = Some (setSubCollections (λ l, l ++ [movedId]) target)) ∧
  (∀ j, j ≠ p → j ≠ col → store' !! j = store !! j).
Proof.
  intros Hfind Hcol Hne Hnodup store'.
  destruct (find_Some _ _ _ _ Hfind) as (Hp & _ & _).
  unfold store', onMoveCollection. rewrite Hfind.
  split; [|split; [|split]].
  - rewrite list_lookup_alter_ne by done. by rewrite list_lookup_alter_eq, Hp.
  - by apply not_elem_of_remove.
  - rewrite list_lookup_alter_eq, list_lookup_alter_ne, Hcol by done. done.
  - intros j Hjp Hjc. by rewrite !list_lookup_alter_ne.
Qed.

Lemma onMoveCollection_moves_witness :
  let store' := onMoveCollection 1 "home" Examples.threeRooms in
  (store' !! 0 = Some (mkCollection "root" [] ["work"])) ∧
  ("home" ∉ ["work"]) ∧
  (store' !! 1 = Some (mkCollection "work" ["urgent"] ["home"])) ∧
  (∀ j, j ≠ 0 → j ≠ 1 → store' !! j = Examples.threeRooms !! j).
Proof.
  apply (onMoveCollection_moves Examples.threeRooms 0 1
           (mkCollection "root" [] ["work"; "home"])
           (mkCollection "work" ["urgent"] []) "home").
  - vm_compute. reflexivity.
  - reflexivity.
  - discriminate.
  - apply (bool_decide_unpack _). vm_compute. exact I.
Defined.

(** Whatever is moved where, [onMoveCollection] keeps the collections,
    their ids and their tags, and the sub-collection ids of the whole
    store are the same as before, each as often: none is lost, none is
    there twice that was not. *)
Theorem onMoveCollection_keeps col movedId store :
  col < length store →
  let store' := onMoveCollection col movedId store in
  map id store' = map id store ∧
  map tags store' = map tags store ∧
  concat (map subCollections store') ≡ₚ concat (map subCollections store).
Proof.
  intros Hcol store'. unfold store', onMoveCollection.
  destruct (find _ store) as [[p parent]|] eqn:Hfind; [|done].
  destruct (find_Some _ _ _ _ Hfind) as (Hp & Hin%includes_true & _).
  split; [|split].
  - by rewrite !(alter_keeps id).
  - by rewrite !(alter_keeps tags).
  - rewrite !subCollections_alter.
    rewrite (concat_alter_add _ movedId).
    + apply concat_alter_remove with (subCollections parent); [|done].
      by rewrite list_lookup_fmap, Hp.
    + intros x. unfold push. by rewrite Permutation_app_comm.
    + by rewrite length_alter, length_map.
Qed.

Lemma onMoveCollection_keeps_witness :
  let store' := onMoveCollection 1 "home" Examples.threeRooms in
  map id store' = map id Examples.threeRooms ∧
  map tags store' = map tags Examples.threeRooms ∧
  concat (map subCollections store') ≡ₚ ["work"; "home"].
Proof.
  apply (onMoveCollection_keeps 1 "home" Examples.threeRooms). simpl. lia.
Defined.

(** Nothing keeps a collection from being moved into itself: a collection
    that has a parent and is dropped on its own node ends up among its own
    sub-collections. *)
Theorem onMoveCollection_into_itself store p col parent c :
  find (λ c', includes (subCollections c') (id c)) store = Some (p, parent) →
  store !! col = Some c →
  ∃ c', onMoveCollection col (id c) store !! col = Some c' ∧
        id c' = id c ∧ id c ∈ subCollections c'.
Proof.
  intros Hfind Hcol. unfold onMoveCollection. rewrite Hfind.
  destruct (find_Some _ _ _ _ Hfind) as (Hp & _ & _).
  rewrite list_lookup_alter_eq.
  destruct (decide (p = col)) as [->|Hne].
  - rewrite list_lookup_alter_eq, Hcol. eexists. split; [done|].
    simpl. split; [done|]. unfold push. set_solver.
  - rewrite list_lookup_alter_ne, Hcol by done. eexists. split; [done|].
    simpl. split; [done|]. unfold push. set_solver.
Qed.

Lemma onMoveCollection_into_itself_witness :
  ∃ c', onMoveCollection 1 "work" Examples.threeRooms !! 1 = Some c' ∧
        id c' = "work" ∧ "work" ∈ subCollections c'.
Proof.
  apply (onMoveCollection_into_itself Examples.threeRooms 0 1
           (mkCollection "root" [] ["work"; "home"])
           (mkCollection "work" ["urgent"] [])).
  - vm_compute. reflexivity.
  - reflexivity.
Defined.

(** [onMoveTag] of a collection node appends: the tag becomes the last
    tag of the collection it is dropped on.  Dropped on the collection it
    is in already, it moves to the end of that collection's tags. *)
Theorem onMoveTagToCollection_appends store p col parent target movedId :
  find (λ c, includes (tags c) movedId) store = Some (p, parent) →
  store !! col = Some target →
  let store' := onMoveTagToCollection col movedId store in
  (store' !! col =
     Some (setTags (λ l, (if decide (p = col) then remove movedId l else l)
                         ++ [movedId]) target)) ∧
  (p ≠ col → store' !! p = Some (setTags (remove movedId) parent)) ∧
  (∀ j, j ≠ p → j ≠ col → store' !! j = store !! j).
Proof.
  intros Hfind Hcol store'.
  destruct (find_Some _ _ _ _ Hfind) as (Hp & _ & _).
  unfold store', onMoveTagToCollection. rewrite Hfind.
  split; [|split].
  - rewrite list_lookup_alter_eq. destruct (decide (p = col)) as [->|Hne].
    + by rewrite list_lookup_alter_eq, Hcol.
    + by rewrite list_lookup_alter_ne, Hcol.
  - intros Hne. rewrite list_lookup_alter_ne by done.
    by rewrite list_lookup_alter_eq, Hp.
  - intros j Hjp Hjc. by rewrite !list_lookup_alter_ne.
Qed.

Lemma onMoveTagToCollection_appends_witness :
  let store' := onMoveTagToCollection 0 "t1" Examples.twoShelves in
  (store' !! 0 = Some (mkCollection "root" ["t2"; "t1"] ["work"])) ∧
  (0 ≠ 0 → store' !! 0 = Some (mkCollection "root" ["t2"] ["work"])) ∧
  (∀ j, j ≠ 0 → j ≠ 0 → store' !! j = Examples.twoShelves !! j).
Proof.
  apply (onMoveTagToCollection_appends Examples.twoShelves 0 0
           (mkCollection "root" ["t1"; "t2"] ["work"])
           (mkCollection "root" ["t1"; "t2"] ["work"]) "t1").
  - vm_compute. reflexivity.
  - reflexivity.
Defined.

(** Both ways of moving a tag keep the collections, their ids and their
    sub-collections, and the tags of the whole store are the same as
    before, each as often: a move loses no tag and doubles none. *)
Theorem onMoveTag_keeps col tagId movedTagId store :
  col < length store →
  let moved := (onMoveTag col tagId movedTagId store).1 in
  let appended := onMoveTagToCollection col movedTagId store in
  map id moved = map id store ∧
  map subCollections moved = map subCollections store ∧
  concat (map tags moved) ≡ₚ concat (map tags store) ∧
  map id appended = map id store ∧
  map subCollections appended = map subCollections store ∧
  concat (map tags appended) ≡ₚ concat (map tags store).
Proof.
  intros Hcol moved appended.
  unfold moved, appended, onMoveTag, onMoveTagToCollection.
  destruct (find _ store) as [[p parent]|] eqn:Hfind; [|done].
  destruct (find_Some _ _ _ _ Hfind) as (Hp & Hin%includes_true & _).
  assert (Hremoved : movedTagId :: concat (alter (remove movedTagId) p (map tags store))
                     ≡ₚ concat (map tags store)).
  { apply concat_alter_remove with (tags parent); [|done].
    by rewrite list_lookup_fmap, Hp. }
  simpl. repeat split.
  - by rewrite !(alter_keeps id).
  - by rewrite !(alter_keeps subCollections).
  - rewrite !tags_alter, (concat_alter_add _ movedTagId); [done| |].
    + intros x. apply spliceInsert_perm.
    + by rewrite length_alter, length_map.
  - by rewrite !(alter_keeps id).
  - by rewrite !(alter_keeps subCollections).
  - rewrite !tags_alter, (concat_alter_add _ movedTagId); [done| |].
    + intros x. unfold push. by rewrite Permutation_app_comm.
    + by rewrite length_alter, length_map.
Qed.

Lemma onMoveTag_keeps_witness :
  let moved := (onMoveTag 1 "u2" "t1" Examples.twoShelves).1 in
  let appended := onMoveTagToCollection 1 "t1" Examples.twoShelves in
  map id moved = ["root"; "work"] ∧
  map subCollections moved = [["work"]; []] ∧
  concat (map tags moved) ≡ₚ ["t1"; "t2"; "u1"; "u2"] ∧
  map id appended = ["root"; "work"] ∧
  map subCollections appended = [["work"]; []] ∧
  concat (map tags appended) ≡ₚ ["t1"; "t2"; "u1"; "u2"].
Proof.
  apply (onMoveTag_keeps 1 "u2" "t1" Examples.twoShelves). simpl. lia.
Defined.

(** A tag dropped on its own node stays where it is: the store is as
    before and nothing is logged. *)
Theorem onMoveTag_on_itself store col c tagId :
  find (λ c', includes (tags c') tagId) store = Some (col, c) →
  onMoveTag col tagId tagId store = (store, []).
Proof.
  intros Hfind.
  destruct (find_Some _ _ _ _ Hfind) as (Hcol & Hin%includes_true & _).
  unfold onMoveTag. rewrite Hfind, Hcol. simpl. f_equal.
  destruct (firstIndex (tags c) tagId) as [i|] eqn:Hi.
  2: { by apply firstIndex_None in Hi. }
  unfold indexOf. rewrite Hi.
  apply list_eq. intros j. destruct (decide (j = col)) as [->|Hne].
  - rewrite !list_lookup_alter_eq, Hcol. simpl. f_equal.
    destruct c as [ci ct cs]. unfold setTags. simpl in *.
    by rewrite spliceInsert_remove.
  - by rewrite !list_lookup_alter_ne.
Qed.

Lemma onMoveTag_on_itself_witness :
  onMoveTag 1 "u2" "u2" Examples.twoShelves = (Examples.twoShelves, []).
Proof.
  apply (onMoveTag_on_itself Examples.twoShelves 1
           (mkCollection "work" ["u1"; "u2"] [])).
  vm_compute. reflexivity.
Defined.

(** A tag that no collection holds cannot be moved: both handlers leave
    the store as it is, and the one of a tag node reports it on the
    console. *)
Theorem onMoveTag_unknown_tag col tagId movedTagId store :
  (∀ c, c ∈ store → movedTagId ∉ tags c) →
  onMoveTag col tagId movedTagId store
  = (store, [("Could not find original collection when moving tag"%string,
              movedTagId)]) ∧
  onMoveTagToCollection col movedTagId store = store.
Proof.
  intros Hnone.
  assert (Hfind : find (λ c, includes (tags c) movedTagId) store = None).
  { apply find_None. intros c Hc. apply includes_false. by apply Hnone. }
  unfold onMoveTag, onMoveTagToCollection. by rewrite Hfind.
Qed.

Lemma onMoveTag_unknown_tag_witness :
  onMoveTag 1 "u2" "nowhere" Examples.twoShelves
  = (Examples.twoShelves,
     [("Could not find original collection when moving tag"%string,
       "nowhere"%string)]) ∧
  onMoveTagToCollection 1 "nowhere" Examples.twoShelves = Examples.twoShelves.
Proof.
  apply (onMoveTag_unknown_tag 1 "u2" "nowhere" Examples.twoShelves).
  intros c Hc. unfold Examples.twoShelves in Hc.
  rewrite !elem_of_cons in Hc.
  destruct Hc as [->|[->|Hc]]; simpl.
  - rewrite !not_elem_of_cons. repeat split; [discriminate..|]. apply not_elem_of_nil.
  - rewrite !not_elem_of_cons. repeat split; [discriminate..|]. apply not_elem_of_nil.
  - by apply elem_of_nil in Hc.
Defined.

End MoveFacts.

(** ** TagTree.tsx: more on the selection of a collection *)

Module SelectionMore.
Import JsArray JsArrayFacts TagTree.

Implicit Types (sel below : list ID) (t : ID).

Lemma remove_filter sel t :
  NoDup sel → remove t sel = filter (λ x, x ≠ t) sel.
Proof.
  induction 1 as [|x sel Hx Hsel IH]; simpl; [done|].
  destruct (decide (x = t)) as [->|Hne].
  - rewrite filter_cons_False by (intros Hn; by apply Hn).
    rewrite <- IH. symmetry. by apply remove_notin.
  - rewrite filter_cons_True by done. by rewrite IH.
Qed.

(** On a selection without duplicates, the loop of line 152 takes out the
    tags below the collection and keeps the others in their order. *)
Theorem deselectAll_filter below sel :
  NoDup sel → deselectAll below sel = filter (λ x, x ∉ below) sel.
Proof.
  unfold deselectAll. revert sel.
  induction below as [|d below IH]; intros sel Hsel; simpl.
  - clear Hsel. induction sel as [|x sel IHsel]; [done|].
    rewrite filter_cons_True by apply not_elem_of_nil. by f_equal.
  - rewrite IH by by apply remove_NoDup.
    rewrite remove_filter by done. rewrite list_filter_filter.
    apply list_filter_iff. intros x. rewrite not_elem_of_cons. tauto.
Qed.

Lemma deselectAll_filter_witness :
  deselectAll ["a"; "b"] ["x"; "a"; "y"; "b"] = ["x"; "y"].
Proof.
  rewrite (deselectAll_filter ["a"; "b"] ["x"; "a"; "y"; "b"]).
  - vm_compute. reflexivity.
  - apply (bool_decide_unpack _). vm_compute. exact I.
Defined.

Lemma selectAll_added below sel :
  ∃ added,
    selectAll below sel = sel ++ added ∧
    NoDup added ∧
    ∀ x, x ∈ added ↔ x ∈ below ∧ x ∉ sel.
Proof.
  unfold selectAll. revert sel.
  induction below as [|d below IH]; intros sel; simpl.
  - exists []. rewrite app_nil_r. split; [done|]. split; [constructor|].
    intros x. rewrite !elem_of_nil. tauto.
  - destruct (includes sel d) eqn:Hd.
    + apply includes_true in Hd. destruct (IH sel) as (added & Heq & Hnd & Hel).
      exists added. split; [done|]. split; [done|].
      intros x. rewrite Hel, elem_of_cons. split; [tauto|].
      intros [[->|?] ?]; tauto.
    + apply includes_false in Hd.
      destruct (IH (push d sel)) as (added & Heq & Hnd & Hel).
      unfold push in *. exists (d :: added).
      split; [by rewrite Heq, <- app_assoc|]. split.
      * constructor; [|done]. rewrite Hel, elem_of_app, list_elem_of_singleton. tauto.
      * intros x. rewrite !elem_of_cons, Hel, elem_of_app, list_elem_of_singleton.
        destruct (decide (x = d)) as [->|Hne]; tauto.
Qed.

(** The loop of line 154 keeps the selection as it is and adds, behind it
    and each once, the tags below the collection that it does not hold. *)
Theorem selectAll_extends below sel :
  ∃ added,
    selectAll below sel = sel ++ added ∧
    NoDup added ∧
    ∀ x, x ∈ added ↔ x ∈ below ∧ x ∉ sel.
Proof. apply selectAll_added. Qed.

(** Whether the collection counts as selected or not, a click on it leaves
    the tags that are not below it as they were: selected if they were,
    not selected if they were not. *)
Theorem toggleCollection_frame selected col sel t :
  t ∉ getRecursiveTags col →
  t ∈ toggleCollectionWith selected col sel ↔ t ∈ sel.
Proof.
  intros Hout. unfold toggleCollectionWith.
  set (below := getRecursiveTags col) in *.
  destruct (selected col sel).
  - unfold deselectAll. revert sel.
    induction below as [|d below IH]; intros sel; simpl; [done|].
    apply not_elem_of_cons in Hout as [Hne Hout].
    rewrite IH by done. by apply elem_of_remove_ne.
  - destruct (selectAll_added below sel) as (added & -> & _ & Hel).
    rewrite elem_of_app, Hel. tauto.
Qed.

Lemma toggleCollection_frame_witness :
  "x" ∈ toggleCollection Examples.shelf Examples.allSelected
  ↔ "x" ∈ Examples.allSelected.
Proof.
  apply (toggleCollection_frame isSelected Examples.shelf Examples.allSelected "x").
  simpl. rewrite !not_elem_of_cons.
  repeat split; [discriminate..|]. apply not_elem_of_nil.
Defined.

End SelectionMore.

(** ** TagTree.tsx: more on the expand state *)

Module ExpandMore.
Import TagTree ExpandFacts.

(** Expanding or collapsing one node copies the expand state: the handler
    hands a new object to [setExpandState], with the entry of the node set
    and the other entries as they were, and leaves the object it was given
    and every other object untouched. *)
Theorem handleNode_copies (expand : bool) nodeId ref
    (h : gmap nat (gmap string bool)) (m : gmap string bool) :
  h !! ref = Some m →
  ∃ new,
    (if expand then handleNodeExpand nodeId ref h
     else handleNodeCollapse nodeId ref h)
    = (new, <[new := <[nodeId := expand]> m]> h) ∧
    new ≠ ref ∧ h !! new = None ∧
    ∀ r, r ≠ new → (<[new := <[nodeId := expand]> m]> h) !! r = h !! r.
Proof.
  intros Href. exists (fresh h).
  pose proof (fresh_not_in h) as Hfresh.
  split; [|split; [|split]].
  - destruct expand; unfold handleNodeExpand, handleNodeCollapse, spreadWith;
      by rewrite Href.
  - intros Heq. rewrite Heq in Hfresh. congruence.
  - done.
  - intros r Hr. by rewrite lookup_insert_ne.
Qed.

Lemma handleNode_copies_witness :
  ∃ new,
    handleNodeCollapse "root" 0 Examples.oneState
    = (new, <[new := <["root" := false]> {[ "root" := true ]}]> Examples.oneState) ∧
    new ≠ 0 ∧ Examples.oneState !! new = None ∧
    ∀ r, r ≠ new →
      (<[new := <["root" := false]> {[ "root" := true ]}]> Examples.oneState) !! r
      = Examples.oneState !! r.
Proof.
  apply (handleNode_copies false "root" 0 Examples.oneState {[ "root" := true ]}).
  unfold Examples.oneState. apply lookup_singleton_eq.
Defined.

(** [onExpand] of a collection node is [handleNodeExpand] for the id of
    the collection. *)
Lemma onExpand_handleNodeExpand col ref (h : gmap nat (gmap string bool)) :
  onExpand col ref h = handleNodeExpand (colId col) ref h.
Proof. reflexivity. Qed.

(** [setExpandStateRecursively] writes to the one object it is given: it
    makes no object and changes no other. *)
Theorem setExpandStateRecursively_frame col val ref
    (h : gmap nat (gmap string bool)) :
  let h' := (setExpandStateRecursively col val ref h).2 in
  dom h' = dom h ∧ ∀ r, r ≠ ref → h' !! r = h !! r.
Proof.
  simpl. rewrite setExpandStateRecursively_snd. split.
  - apply set_eq. intros r. rewrite !elem_of_dom, lookup_alter.
    case_decide; [subst|done]. by rewrite fmap_is_Some.
  - intros r Hr. by rewrite lookup_alter_ne.
Qed.

(** The last of two recursive updates of the same collection wins: to
    collapse all after expanding all (or the other way round, or twice the
    same) leaves what the second alone would have left. *)
Theorem setExpandStateRecursively_twice col first second ref
    (h : gmap nat (gmap string bool)) :
  (setExpandStateRecursively col second ref
     (setExpandStateRecursively col first ref h).2).2
  = (setExpandStateRecursively col second ref h).2.
Proof.
  rewrite !setExpandStateRecursively_snd.
  apply map_eq. intros r. rewrite !lookup_alter.
  case_decide; [subst|done]. rewrite decide_True by done.
  destruct (h !! r) as [m|]; [|done]. simpl. f_equal.
  apply map_eq. intros key. rewrite !expandedBelow_lookup.
  by case_decide.
Qed.

End ExpandMore.

(** ** FileStore.ts: more on adding and removing files *)

Module StoreMore.
Import JsArray JsArrayFacts FileStore FileStoreFacts ReconcileFacts.

Section Removing.
Context {B : Type} (be : Backend B) (rt : Runtime).
Implicit Types (st : State B) (f g : ClientFile) (r : IFile) (l : list ClientFile).

#[local] Abbreviation fileId f := (id (record f)).

Lemma NoDup_ids_elem l f g :
  NoDup (map (λ f, fileId f) l) → f ∈ l → g ∈ l → fileId f = fileId g → f = g.
Proof.
  intros Hnd (i & Hi)%list_elem_of_lookup (j & Hj)%list_elem_of_lookup Heq.
  assert (i = j) as ->; [|congruence].
  eapply NoDup_lookup; [exact Hnd | |]; rewrite list_lookup_fmap.
  - by rewrite Hi.
  - rewrite Hj. simpl. by rewrite Heq.
Qed.

Lemma filter_iff_in {A} (P Q : A → Prop)
    `{!∀ x, Decision (P x), !∀ x, Decision (Q x)} (xs : list A) :
  (∀ x, x ∈ xs → P x ↔ Q x) → filter P xs = filter Q xs.
Proof.
  induction xs as [|y xs IH]; intros Hiff; [done|].
  assert (Hrest : ∀ x, x ∈ xs → P x ↔ Q x) by (intros x Hx; apply Hiff; by right).
  assert (Hy : P y ↔ Q y) by (apply Hiff; left).
  rewrite !filter_cons. destruct (decide (P y)).
  - rewrite decide_True by tauto. f_equal. by apply IH.
  - rewrite decide_False by tauto. by apply IH.
Qed.

Lemma remove_by_id (P : ClientFile → Prop) `{!∀ x, Decision (P x)} l f :
  NoDup (map (λ f, fileId f) l) → f ∈ l →
  remove f (filter P l) = filter (λ g, P g ∧ fileId g ≠ fileId f) l.
Proof.
  induction l as [|x l IH]; intros Hnd Hin.
  { by apply elem_of_nil in Hin. }
  simpl in Hnd. apply NoDup_cons in Hnd as [Hx Hnd].
  assert (Hothers : ∀ g, g ∈ l → fileId g ≠ fileId x).
  { intros g Hg Heq. apply Hx. apply list_elem_of_fmap. by exists g. }
  destruct (decide (x = f)) as [->|Hne].
  - assert (Hrest : filter (λ g, P g ∧ fileId g ≠ fileId f) l = filter P l).
    { apply filter_iff_in. intros g Hg. specialize (Hothers g Hg). tauto. }
    rewrite (filter_cons_False (λ g, P g ∧ fileId g ≠ fileId f)) by tauto.
    rewrite Hrest, filter_cons. destruct (decide (P f)).
    + simpl. by rewrite decide_True.
    + apply remove_notin. intros [_ Hf]%list_elem_of_filter.
      by apply (Hothers f Hf).
  - apply elem_of_cons in Hin as [->|Hin]; [done|].
    assert (Hid : fileId x ≠ fileId f) by (intros Heq; by apply (Hothers f Hin)).
    rewrite !filter_cons. destruct (decide (P x)) as [Hp|Hp].
    + rewrite decide_True by done. simpl.
      rewrite decide_False by done. f_equal. by apply IH.
    + rewrite decide_False by tauto. by apply IH.
Qed.

Lemma filter_all l (P : ClientFile → Prop) `{!∀ x, Decision (P x)} :
  (∀ f, f ∈ l → P f) → filter P l = l.
Proof.
  induction l as [|x l IH]; intros Hall; [done|].
  rewrite filter_cons_True by (apply Hall; left).
  f_equal. apply IH. intros f Hf. apply Hall. by right.
Qed.

Lemma foldl_removals l0 ids :
  NoDup (map (λ f, fileId f) l0) →
  ∀ acc : list ID,
    foldl removalFromList (filter (λ f, fileId f ∉ acc) l0)
          (map (λ i, findById i l0) ids)
    = filter (λ f, fileId f ∉ acc ++ ids) l0.
Proof.
  intros Hnd. induction ids as [|i ids IH]; intros acc; simpl.
  - by rewrite app_nil_r.
  - replace (acc ++ i :: ids) with ((acc ++ [i]) ++ ids) by by rewrite <- app_assoc.
    rewrite <- IH. f_equal.
    destruct (findById i l0) as [f|] eqn:Hfind; simpl.
    + apply findById_Some in Hfind as [Hin <-].
      rewrite (remove_by_id _ _ _ Hnd Hin).
      apply list_filter_iff. intros g.
      rewrite not_elem_of_app, list_elem_of_singleton. tauto.
    + apply filter_iff_in. intros g Hg.
      rewrite not_elem_of_app, list_elem_of_singleton.
      pose proof (findById_None _ _ _ Hfind Hg). tauto.
Qed.

(** With different ids in the file list and a backend that accepts the
    deletions, [removeFilesById] takes out of the list exactly the files
    whose id is among [ids], and keeps the others in their order. *)
Theorem removeFilesById_removes_exactly ids st :
  NoDup (map (λ f, fileId f) (fileList st)) →
  (∀ b r, (removeFile be b r).2 = Resolved tt) →
  ∃ st',
    removeFilesById be ids st = (Resolved tt, st') ∧
    fileList st' = filter (λ f, fileId f ∉ ids) (fileList st).
Proof.
  intros Hnd Hok.
  destruct (forEach_removals be (map (λ i, findById i (fileList st)) ids) st)
    as (n & out & st' & Hrun & _ & _ & Hfl & _ & Hall).
  destruct (Hall Hok) as [-> ->].
  exists st'. split.
  - unfold removeFilesById, getFileList. unfold mbind at 1, M_bind, bind.
    exact Hrun.
  - rewrite Hfl, firstn_all.
    rewrite <- (filter_all (fileList st) (λ f, fileId f ∉ [])) at 1
      by (intros f _; apply not_elem_of_nil).
    by rewrite (foldl_removals _ _ Hnd []).
Qed.

(** Ids that no file of the list has are reported on the console, one
    after the other, and nothing else happens: the list is as before and
    the backend is not called.  With no ids at all nothing happens. *)
Theorem removeFilesById_unknown ids st :
  (∀ i f, i ∈ ids → f ∈ fileList st → fileId f ≠ i) →
  removeFilesById be ids st
  = (Resolved tt,
     mkState (fileList st) (nextObj st) (backend st)
             (trace st ++ replicate (length ids)
                            (Log "Could not find file to remove" "undefined"))
             (unhandled st)).
Proof.
  intros Hunknown.
  unfold removeFilesById, getFileList. unfold mbind at 1, M_bind, bind.
  assert (Hfiles : map (λ i, findById i (fileList st)) ids
                   = replicate (length ids) None).
  { induction ids as [|i ids IH]; [done|]. simpl. f_equal.
    - destruct (findById i (fileList st)) as [f|] eqn:Hfind; [|done].
      apply findById_Some in Hfind as [Hin Hid].
      exfalso. apply (Hunknown i f); [left | done | done].
    - apply IH. intros j f Hj. apply Hunknown. by right. }
  rewrite Hfiles. clear Hfiles Hunknown. generalize (length ids). intros n.
  revert st. induction n as [|n IH]; intros st; simpl.
  - unfold mret, M_ret, ret. rewrite app_nil_r. by destruct st.
  - unfold mbind, M_bind, bind. unfold emit at 1. rewrite IH. simpl.
    by rewrite <- app_assoc.
Qed.

(** A file that was added and is then removed by its id leaves the list as
    it was before, whether or not the backend accepts the deletion,
    provided no file of the list had the id that the new file got. *)
Theorem addFile_removeFilesById filePath st b :
  createFile be (backend st) (generateId rt (nextObj st)) filePath
    = (b, Resolved tt) →
  (∀ f, f ∈ fileList st → fileId f ≠ generateId rt (nextObj st)) →
  ∃ out st',
    (file ← addFile be rt filePath; removeFilesById be [fileId file]) st
      = (out, st') ∧
    fileList st' = fileList st.
Proof.
  intros Hcreate Hfresh.
  unfold mbind at 1, M_bind at 1, bind at 1.
  unfold addFile, backendCreateFile, callBackend, newClientFile, getFileList,
    setFileList.
  unfold mbind at 1 2 3 4, M_bind at 1 2 3 4, bind at 1 2 3 4.
  simpl. rewrite Hcreate. simpl.
  unfold removeFilesById, getFileList.
  unfold mbind at 1, M_bind at 1, bind at 1. simpl.
  set (file := mkClientFile (nextObj st)
                 (mkFile (generateId rt (nextObj st)) filePath [])).
  assert (Hfind : findById (generateId rt (nextObj st)) (push file (fileList st))
                  = Some file).
  { unfold findById, push. clear -Hfresh.
    induction (fileList st) as [|x l IH]; simpl.
    - by rewrite bool_decide_eq_true_2.
    - rewrite bool_decide_eq_false_2 by (apply Hfresh; left).
      apply IH. intros f Hf. apply Hfresh. by right. }
  rewrite Hfind. simpl.
  unfold removeFile', emit, getFileList, setFileList, backendRemoveFile, callBackend.
  unfold mbind, M_bind, bind. simpl.
  assert (Hremove : remove file (push file (fileList st)) = fileList st).
  { unfold push. clear -Hfresh.
    induction (fileList st) as [|x l IH]; simpl.
    - by rewrite decide_True.
    - rewrite decide_False.
      + f_equal. apply IH. intros f Hf. apply Hfresh. by right.
      + intros ->. by apply (Hfresh file); [left|]. }
  rewrite Hremove.
  destruct (removeFile be b (mkFile (generateId rt (nextObj st)) filePath []))
    as [b' [[]|err]]; simpl; eexists _, _; (split; [reflexivity|]); done.
Qed.

End Removing.

Import FileExamples.

Lemma loaded_ids : NoDup (map (λ f, id (record f)) (fileList loaded)).
Proof. apply (bool_decide_unpack _). vm_compute. exact I. Qed.

Lemma removeFilesById_removes_exactly_witness :
  ∃ st',
    removeFilesById memoryBackend ["c"; "zz"; "a"] loaded = (Resolved tt, st') ∧
    fileList st' = [fileB].
Proof.
  destruct (removeFilesById_removes_exactly memoryBackend ["c"; "zz"; "a"] loaded
              loaded_ids (λ b r, eq_refl)) as (st' & Hrun & Hfl).
  exists st'. split; [exact Hrun|]. rewrite Hfl. vm_compute. reflexivity.
Defined.

Lemma removeFilesById_unknown_witness :
  removeFilesById memoryBackend ["zz"; "yy"] loaded
  = (Resolved tt,
     mkState [fileA; fileB; fileC] 3 [recA; recB; recC]
             [Log "Could not find file to remove" "undefined";
              Log "Could not find file to remove" "undefined"] []).
Proof.
  apply (removeFilesById_unknown memoryBackend ["zz"; "yy"] loaded).
  intros i f Hi Hf. change (f ∈ [fileA; fileB; fileC]) in Hf.
  rewrite !elem_of_cons in Hi. rewrite !elem_of_cons in Hf.
  destruct Hi as [->|[->|Hi]]; [| |by apply elem_of_nil in Hi];
    destruct Hf as [->|[->|[->|Hf]]]; try discriminate;
    by apply elem_of_nil in Hf.
Defined.

Lemma addFile_removeFilesById_witness :
  ∃ out st',
    (file ← addFile memoryBackend inOrder "/pics/new.png";
     removeFilesById memoryBackend [id (record file)]) loaded
      = (out, st') ∧
    fileList st' = [fileA; fileB; fileC].
Proof.
  apply (addFile_removeFilesById memoryBackend inOrder "/pics/new.png" loaded
           ([recA; recB; recC] ++ [mkFile "file-3" "/pics/new.png" []])).
  - vm_compute. reflexivity.
  - intros f Hf. change (f ∈ [fileA; fileB; fileC]) in Hf.
    rewrite !elem_of_cons in Hf.
    destruct Hf as [->|[->|[->|Hf]]]; [| | |by apply elem_of_nil in Hf];
      vm_compute; discriminate.
Defined.

End StoreMore.

(** ** FileStore.ts: more on loading and reconciliation *)

Module ReconcileMore.
Import JsArray JsArrayFacts FileStore FileStoreFacts ReconcileFacts StoreMore.

Section Loading.
Context {B : Type} (be : Backend B) (rt : Runtime).
Implicit Types (st : State B) (f g : ClientFile) (r : IFile) (l : list ClientFile).

Lemma freshFiles_cons n r rs :
  freshFiles n (r :: rs) = mkClientFile n r :: freshFiles (S n) rs.
Proof.
  unfold freshFiles. rewrite imap_cons. f_equal; [f_equal; lia|].
  apply imap_ext. intros i x _. simpl. f_equal. lia.
Qed.


Lemma freshFiles_objs n rs : map obj (freshFiles n rs) = seq n (length rs).
Proof.
  revert n. induction rs as [|r rs IH]; intros n; [done|].
  rewrite freshFiles_cons. simpl. by rewrite IH.
Qed.

Lemma runTurn_no_callbacks {A} order (acc : list (option A) * option string * State B) :
  foldl (runTurn []) acc order = acc.
Proof.
  induction order as [|i order IH]; [done|]. simpl.
  destruct acc as [[results rejection] st]. apply IH.
Qed.

(** Reconciliation against an empty batch empties the file list: every
    entry is disposed, no object is made and the backend is not called.
    (This is what a search that finds nothing leads to.) *)
Theorem updateFromBackend_empty_batch st :
  updateFromBackend be rt [] st
  = (Resolved tt,
     mkState [] (nextObj st) (backend st)
             (trace st ++ map Dispose (fileList st)) (unhandled st)).
Proof.
  unfold updateFromBackend, existenceChecks, promiseAll.
  unfold mbind at 1, M_bind at 1, bind at 1. simpl map.
  rewrite runTurn_no_callbacks. simpl.
  unfold rebuild, getFileList. unfold mbind at 1, M_bind at 1, bind at 1.
  destruct (fileList st) as [|f l] eqn:Hl.
  - rewrite bool_decide_eq_true_2 by done.
    unfold mbind, M_bind, bind, setFileList, getFileList.
    rewrite filesFromBackend_run. simpl. rewrite Hl.
    rewrite Nat.add_0_r, (app_nil_r (trace st)). reflexivity.
  - rewrite bool_decide_eq_false_2 by done.
    rewrite bool_decide_eq_true_2 by done.
    unfold clearFileList, getFileList, setFileList, mbind, M_bind, bind.
    rewrite forEach_dispose. simpl. by rewrite Hl.
Qed.

(** *** [loadFiles] *)

Lemma loadFile_step r st :
  ∃ st1,
    loadFile be rt r st = (Resolved tt, st1) ∧
    fileList st1 = fileList st ++
      (if pathExists rt (path r) then [mkClientFile (nextObj st) r] else []) ∧
    nextObj st1 = nextObj st + (if pathExists rt (path r) then 1 else 0) ∧
    trace st1 = trace st ++
      (if pathExists rt (path r) then [] else staleEvents r).
Proof.
  unfold loadFile. destruct (pathExists rt (path r)).
  - unfold newClientFileFromBackend, getFileList, setFileList, push,
      mbind, M_bind, bind. simpl.
    eexists. split; [reflexivity|]. simpl.
    rewrite app_nil_r. repeat split; lia.
  - unfold emit, notAwaited, backendRemoveFile, callBackend, mbind, M_bind, bind.
    simpl. destruct (removeFile be (backend st) r) as [b1 [[]|err]]; simpl;
      eexists; (split; [reflexivity|]); simpl;
      rewrite app_nil_r, Nat.add_0_r, <- app_assoc; done.
Qed.

Lemma loadFile_fold fetched order :
  ∀ results rejection st,
  ∃ results' st',
    foldl (runTurn (map (loadFile be rt) fetched)) (results, rejection, st) order
      = (results', rejection, st') ∧
    fileList st' = fileList st
      ++ freshFiles (nextObj st) (loadedRecords rt fetched order) ∧
    nextObj st' = nextObj st + length (loadedRecords rt fetched order) ∧
    trace st' = trace st
      ++ flat_map staleEvents
           (filter (λ r, pathExists rt (path r) = false)
                   (omap (λ i, fetched !! i) order)).
Proof.
  unfold loadedRecords.
  induction order as [|i order IH]; intros results rejection st.
  - exists results, st. simpl. rewrite !app_nil_r. repeat split; lia.
  - cbn [foldl]. unfold runTurn at 2. rewrite list_lookup_fmap.
    change (omap (λ i0, fetched !! i0) (i :: order))
      with (match fetched !! i with
            | Some r => r :: omap (λ i0, fetched !! i0) order
            | None => omap (λ i0, fetched !! i0) order
            end).
    destruct (fetched !! i) as [r|] eqn:Hi; simpl; [|apply IH].
    destruct (loadFile_step r st) as (st1 & Hrun & Hfl1 & Hno1 & Htr1).
    rewrite Hrun.
    destruct (IH (<[i := Some tt]> results) rejection st1)
      as (results' & st' & Hfold & Hfl & Hno & Htr).
    exists results', st'. split; [done|].
    rewrite Hfl, Hno, Htr, Hfl1, Hno1, Htr1. rewrite !filter_cons.
    destruct (pathExists rt (path r)) eqn:Hr.
    + rewrite decide_True, decide_False by congruence.
      rewrite freshFiles_cons. simpl. rewrite app_nil_r, <- app_assoc.
      replace (nextObj st + 1) with (S (nextObj st)) by lia.
      repeat split; try done. lia.
    + rewrite decide_False, decide_True by congruence.
      simpl. rewrite !app_nil_r, Nat.add_0_r, <- !app_assoc.
      repeat split; done.
Qed.

Lemma omap_lookup_seq {A} (pre xs : list A) :
  omap (λ i, (pre ++ xs) !! i) (seq (length pre) (length xs)) = xs.
Proof.
  revert pre. induction xs as [|x xs IH]; intros pre; [done|].
  simpl. rewrite list_lookup_middle by done. f_equal.
  specialize (IH (pre ++ [x])).
  rewrite <- app_assoc, length_app in IH. simpl in IH.
  by rewrite Nat.add_1_r in IH.
Qed.

Lemma omap_lookup_fair {A} (xs : list A) order :
  order ≡ₚ seq 0 (length xs) → omap (λ i, xs !! i) order ≡ₚ xs.
Proof.
  intros ->. pose proof (omap_lookup_seq [] xs) as Heq. simpl in Heq.
  by rewrite Heq.
Qed.

(** [init] loads the files of the backend.  When the backend rejects
    [fetchFiles] the rejection is the outcome of [init]: it is not caught,
    nothing is logged and the list is as before.  Otherwise [init]
    resolves, also when deletions are rejected: the list gets a new object
    for every fetched record whose path exists, in the order in which
    their checks complete, so that these records are the ones of the batch
    up to order; a record whose path does not exist is logged and its
    deletion asked of the backend. *)
Theorem init_outcome st b answer :
  fetchFiles be (backend st) = (b, answer) →
  match answer with
  | Rejected err =>
      init be rt st
      = (Rejected err,
         mkState (fileList st) (nextObj st) b (trace st ++ [FetchFiles])
                 (unhandled st))
  | Resolved fetched =>
      let order := completionOrder rt fetched in
      ∃ st',
        init be rt st = (Resolved tt, st') ∧
        fileList st' = fileList st
          ++ freshFiles (nextObj st) (loadedRecords rt fetched order) ∧
        trace st' = trace st ++ FetchFiles ::
          flat_map staleEvents
            (filter (λ r, pathExists rt (path r) = false)
                    (omap (λ i, fetched !! i) order)) ∧
        (order ≡ₚ seq 0 (length fetched) →
         loadedRecords rt fetched order
         ≡ₚ filter (λ r, pathExists rt (path r) = true) fetched)
  end.
Proof.
  intros Hfetch. unfold init, loadFiles, backendFetchFiles, callBackend.
  unfold mbind, M_bind, bind. rewrite Hfetch.
  destruct answer as [fetched|err]; [|reflexivity].
  cbv beta iota zeta. set (order := completionOrder rt fetched). unfold promiseAll.
  destruct (loadFile_fold fetched order
              (replicate (length (map (loadFile be rt) fetched)) None) None
              (mkState (fileList st) (nextObj st) b (trace st ++ [FetchFiles])
                       (unhandled st)))
    as (results' & st' & Hfold & Hfl & _ & Htr).
  rewrite Hfold. simpl in *.
  exists st'. split; [done|]. split; [done|]. split.
  - by rewrite Htr, <- app_assoc.
  - intros Hfair. unfold loadedRecords. by rewrite (omap_lookup_fair _ _ Hfair).
Qed.

End Loading.

Section Reconciling.
Context {B : Type} (be : Backend B) (rt : Runtime).
Implicit Types (st : State B) (f g : ClientFile) (r : IFile) (l : list ClientFile).

#[local] Abbreviation fileId f := (id (record f)).
#[local] Abbreviation exists_ r := (pathExists rt (path r) = true).
#[local] Abbreviation stale r := (pathExists rt (path r) = false).

(** *** Which files the existence checks take out *)







(** *** A backend that accepts every deletion *)



Lemma rebuild_fresh existing st :
  ∃ st2,
    rebuild existing st = (Resolved tt, st2) ∧
    fileList st2 = freshFiles (nextObj st) existing ∧
    nextObj st2 = nextObj st + length existing.
Proof.
  unfold rebuild, getFileList. unfold mbind at 1, M_bind at 1, bind at 1.
  destruct (fileList st) as [|f l] eqn:Hl.
  - rewrite bool_decide_eq_true_2 by done.
    unfold mbind, M_bind, bind, setFileList, getFileList.
    rewrite filesFromBackend_run. simpl. rewrite Hl.
    eexists. split; [reflexivity|]. done.
  - rewrite bool_decide_eq_false_2 by done.
    destruct existing as [|r rs].
    + rewrite bool_decide_eq_true_2 by done.
      unfold clearFileList, getFileList, setFileList, mbind, M_bind, bind.
      rewrite forEach_dispose. simpl.
      eexists. split; [reflexivity|]. simpl. split; [done | lia].
    + rewrite bool_decide_eq_false_2 by done.
      unfold replaceFileList, getFileList, setFileList, mbind, M_bind, bind.
      rewrite filesFromBackend_run. simpl. rewrite forEach_dispose. simpl.
      eexists. split; [reflexivity|]. done.
Qed.



(** *** The objects of the list stay different *)

Lemma remove_sublist {A} `{EqDecision A} (x : A) (xs : list A) :
  remove x xs `sublist_of` xs.
Proof.
  induction xs as [|y xs IH]; simpl; [done|].
  destruct (decide (y = x)); [by apply sublist_cons | by apply sublist_skip].
Qed.

Lemma distinct_step st st' kept recs :
  distinctObjects st →
  kept `sublist_of` fileList st →
  fileList st' = kept ++ freshFiles (nextObj st) recs →
  nextObj st + length recs ≤ nextObj st' →
  distinctObjects st'.
Proof.
  intros [Hnd Hbound] Hsub Hfl Hno.
  assert (Hkept : ∀ f, f ∈ kept → obj f < nextObj st).
  { intros f Hf. apply Hbound. by eapply elem_of_sublist. }
  unfold distinctObjects. rewrite Hfl. split.
  - rewrite map_app, freshFiles_objs. apply NoDup_app. split; [|split].
    + eapply sublist_NoDup; [exact Hnd|]. by apply fmap_sublist.
    + intros n (f & -> & Hf)%list_elem_of_fmap Hn%elem_of_seq.
      specialize (Hkept f Hf). lia.
    + apply NoDup_seq.
  - intros f [Hf|Hf]%elem_of_app.
    + specialize (Hkept f Hf). lia.
    + assert (Hobj : obj f ∈ map obj (freshFiles (nextObj st) recs))
        by (apply list_elem_of_fmap; by exists f).
      rewrite freshFiles_objs in Hobj. apply elem_of_seq in Hobj. lia.
Qed.

Lemma distinct_same st st' :
  distinctObjects st →
  fileList st' `sublist_of` fileList st → nextObj st ≤ nextObj st' →
  distinctObjects st'.
Proof.
  intros Hd Hsub Hno. apply (distinct_step st st' (fileList st') []); try done.
  - by rewrite app_nil_r.
  - simpl. lia.
Qed.

Lemma forEach_removals_shape (files : list (option ClientFile)) :
  ∀ st, ∃ out st',
    forEach files (removalBody be) st = (out, st') ∧
    fileList st' `sublist_of` fileList st ∧ nextObj st' = nextObj st.
Proof.
  induction files as [|file files IH]; intros st.
  - by exists (Resolved tt), st.
  - destruct (removalBody_step be file st)
      as (st1 & out1 & Hbody & _ & Hfl1 & Hno1 & _).
    assert (Hsub1 : fileList st1 `sublist_of` fileList st).
    { rewrite Hfl1. destruct file; simpl; [apply remove_sublist | done]. }
    cbn [forEach]. unfold mbind, M_bind, bind. rewrite Hbody.
    destruct out1 as [[]|err]; [|by exists (Rejected err), st1].
    destruct (IH st1) as (out & st' & Hrest & Hsub & Hno).
    exists out, st'. split; [done|]. split; [by etrans | congruence].
Qed.

Lemma passList_sublist backendFiles order :
  ∀ l, passList rt backendFiles order l `sublist_of` l.
Proof.
  induction order as [|i order IH]; intros l; simpl; [done|].
  destruct (backendFiles !! i) as [r|]; [|apply IH].
  etrans; [apply IH|]. unfold checkList.
  destruct (pathExists rt (path r)); [done|].
  destruct (findById (id r) l); [apply remove_sublist | done].
Qed.

Lemma updateFromBackend_distinct backendFiles st :
  distinctObjects st → distinctObjects (updateFromBackend be rt backendFiles st).2.
Proof.
  intros Hd.
  destruct (existenceChecks_run be rt backendFiles st)
    as (out & st1 & Hrun & _ & Hfl & Hno & _).
  assert (Hd1 : distinctObjects st1).
  { apply (distinct_same st); [done| |lia].
    rewrite Hfl. apply passList_sublist. }
  destruct out as [checker|err].
  - rewrite (updateFromBackend_run _ _ _ _ _ _ Hrun).
    destruct (rebuild_fresh (keepChecked backendFiles checker) st1)
      as (st2 & -> & Hfl2 & Hno2).
    simpl. apply (distinct_step st1 st2 [] (keepChecked backendFiles checker));
      [done | apply sublist_nil_l | done | lia].
  - unfold updateFromBackend. unfold mbind at 1, M_bind at 1, bind at 1.
    by rewrite Hrun.
Qed.

Lemma distinctObjects_ext st st' :
  fileList st' = fileList st → nextObj st' = nextObj st →
  distinctObjects st → distinctObjects st'.
Proof. unfold distinctObjects. by intros -> ->. Qed.

(** No operation of the store puts an object into the file list twice:
    if the entries of the list are different objects, they still are
    after [addFile], [removeFilesById], [updateFromBackend],
    [fetchAllFiles], [fetchFilesByTagIDs] and [init], however the
    operation ends. *)
Theorem store_keeps_objects_distinct st :
  distinctObjects st →
  (∀ filePath, distinctObjects (addFile be rt filePath st).2) ∧
  (∀ ids, distinctObjects (removeFilesById be ids st).2) ∧
  (∀ backendFiles, distinctObjects (updateFromBackend be rt backendFiles st).2) ∧
  distinctObjects (fetchAllFiles be rt st).2 ∧
  (∀ tagIds, distinctObjects (fetchFilesByTagIDs be rt tagIds st).2) ∧
  distinctObjects (init be rt st).2.
Proof.
  intros Hd.
  assert (Hfetch : distinctObjects (fetchAllFiles be rt st).2).
  { unfold fetchAllFiles, tryCatch, mbind, M_bind, bind, backendFetchFiles,
      callBackend, notAwaited, emit.
    destruct (fetchFiles be (backend st)) as [b [fetched|err]]; simpl.
    - match goal with
      | |- context [updateFromBackend be rt fetched ?s] =>
          pose proof (updateFromBackend_distinct fetched s
                        (distinctObjects_ext st s eq_refl eq_refl Hd)) as Hu;
          destruct (updateFromBackend be rt fetched s) as [[[]|e] st2]
      end; simpl in *; [done|].
      by apply (distinctObjects_ext st2).
    - by apply (distinctObjects_ext st). }
  split; [|split; [|split; [|split; [|split]]]].
  - intros filePath.
    unfold addFile, backendCreateFile, callBackend, newClientFile, getFileList,
      setFileList, push, mbind, M_bind, bind. simpl.
    destruct (createFile be (backend st) _ filePath) as [b [[]|err]]; simpl.
    + eapply (distinct_step st _ (fileList st)
                [mkFile (generateId rt (nextObj st)) filePath []]);
        [done | done | | simpl; lia].
      simpl. unfold freshFiles. simpl. by rewrite Nat.add_0_r.
    + apply (distinct_same st); simpl; [done | done | lia].
  - intros ids. unfold removeFilesById, getFileList.
    unfold mbind at 1, M_bind, bind.
    destruct (forEach_removals_shape
                (map (λ fileId, findById fileId (fileList st)) ids) st)
      as (out & st' & -> & Hsub & Hno).
    simpl. apply (distinct_same st); [done | done | lia].
  - intros backendFiles. by apply updateFromBackend_distinct.
  - done.
  - intros tagIds. unfold fetchFilesByTagIDs. case_bool_decide; [done|].
    unfold tryCatch, mbind, M_bind, bind, backendSearchFiles,
      callBackend, notAwaited, emit.
    destruct (searchFiles be (backend st) tagIds) as [b [fetched|err]]; simpl.
    + match goal with
      | |- context [updateFromBackend be rt fetched ?s] =>
          pose proof (updateFromBackend_distinct fetched s
                        (distinctObjects_ext st s eq_refl eq_refl Hd)) as Hu;
          destruct (updateFromBackend be rt fetched s) as [[[]|e] st2]
      end; simpl in *; [done|].
      by apply (distinctObjects_ext st2).
    + by apply (distinctObjects_ext st).
  - unfold init, loadFiles, backendFetchFiles, callBackend.
    unfold mbind, M_bind, bind.
    destruct (fetchFiles be (backend st)) as [b [fetched|err]]; simpl.
    + unfold promiseAll.
      destruct (loadFile_fold be rt fetched (completionOrder rt fetched)
                  (replicate (length (map (loadFile be rt) fetched)) None) None
                  (mkState (fileList st) (nextObj st) b (trace st ++ [FetchFiles])
                           (unhandled st)))
        as (results' & st' & -> & Hfl & Hno & _).
      simpl in *.
      eapply (distinct_step st st' (fileList st)); [done | done | exact Hfl | lia].
    + by apply (distinctObjects_ext st).
Qed.

End Reconciling.

Import FileExamples.

Lemma init_outcome_witness :
  ∃ st',
    init readOnlyBackend lastFirst empty = (Resolved tt, st') ∧
    fileList st' = [mkClientFile 0 recB; mkClientFile 1 recA] ∧
    trace st' = [FetchFiles; Log "/pics/gone.png 'does not exist'" "";
                 RemoveFile recC] ∧
    (completionOrder lastFirst [recA; recB; recC] ≡ₚ seq 0 3 →
     [recB; recA] ≡ₚ [recA; recB]).
Proof.
  exact (init_outcome readOnlyBackend lastFirst empty [recA; recB; recC]
           (Resolved [recA; recB; recC]) eq_refl).
Defined.



Lemma loaded_distinct : distinctObjects loaded.
Proof.
  split; [apply (bool_decide_unpack _); vm_compute; exact I|].
  apply loaded_objects.
Qed.

Lemma store_keeps_objects_distinct_witness :
  distinctObjects
    (updateFromBackend readOnlyBackend lastFirst [recA; recB; recC] loaded).2 ∧
  distinctObjects (addFile memoryBackend inOrder "/pics/new.png" loaded).2.
Proof.
  destruct (store_keeps_objects_distinct readOnlyBackend lastFirst loaded
              loaded_distinct) as (_ & _ & Hupdate & _).
  destruct (store_keeps_objects_distinct memoryBackend inOrder loaded
              loaded_distinct) as (Hadd & _).
  split; [apply Hupdate | apply Hadd].
Defined.

End ReconcileMore.
